(** * AVL tree with split, merge and node augmentation

    A shallow embedding of [AVLTree.h] and [AVLUtils.h].

    An owning pointer [std::unique_ptr<Node>] is a value of the inductive type
    [Node]: either [nullptr] or a node with its fields and the two pointers it
    owns.  Ownership is exclusive in the source, so the owned structure is a
    tree and is represented as one.  The non-owning [parent] field is not
    stored: a [Node*] into a tree is the node together with the chain of its
    ancestors ([list Parent], nearest first), and a walk along [parent]
    pointers is a recursion over that chain.

    [size_t] values are heights, subtree sizes and indices; they are modelled
    in [nat].  A height or a size never exceeds the number of live nodes
    (lemmas [avl_height_le_nodes] and [GetSize_augmented]), each of which is
    a separate allocation, so the additions of the source stay far below
    [2^64]; the only subtraction ([i - ls - 1]) is guarded by [i > ls].

    [assert] is modelled as in a build without [NDEBUG]: a failing assertion
    ends the call with [AssertFailed].  Where a theorem shows that a call
    ends with [Ok], a build with [NDEBUG] computes the same result.  Assertions that hold by the
    statements just before them ([assert(fromParent)] on the address of a
    member, [assert(!p->children[1])] right after the pointer was swapped
    with an empty one) have no counterpart here.

    The comparer is [m_comp].  One comparison of keys is written with
    [operator<] of the key type instead (the assertion of [MergeWith]); it is
    [operator_lt], a parameter of its own.  For the default comparer
    [std::less<T>] the two are the same function. *)

From Stdlib Require Import String List Arith Lia Bool ZArith Sorted Permutation.
Import ListNotations.

Set Implicit Arguments.

(** ** Outcome of a call *)

Inductive Exception : Type :=
| invalid_argument (what : string).

Inductive Result (A : Type) : Type :=
| Ok (a : A)                 (* normal return *)
| Throw (e : Exception)      (* a C++ exception leaves the call *)
| AssertFailed               (* an [assert] of the source does not hold *)
| Undefined.                 (* null or dangling pointer dereferenced *)

Arguments Ok {A} a.
Arguments Throw {A} e.
Arguments AssertFailed {A}.
Arguments Undefined {A}.

Definition bind {A C : Type} (r : Result A) (k : A -> Result C) : Result C :=
  match r with
  | Ok a => k a
  | Throw e => Throw e
  | AssertFailed => AssertFailed
  | Undefined => Undefined
  end.

Notation "x <- c1 ;; c2" := (bind c1 (fun x => c2))
  (at level 61, c1 at next level, right associativity).
Notation "' pat <- c1 ;; c2" := (bind c1 (fun x => match x with pat => c2 end))
  (at level 61, pat pattern, c1 at next level, right associativity).

Definition Assert (b : bool) : Result unit :=
  if b then Ok tt else AssertFailed.

Notation "'assert!' b ;; c2" := (bind (Assert b) (fun _ => c2))
  (at level 61, b at next level, right associativity).

(** ** The augmentation policy ([NodeBaseType])

    The base class of a node is constructed from the key and recomputed by
    [UpdateNodeState] from the key and the two child pointers.  What the
    policies of the source read through a child pointer is the child's base
    state, and in one place ([SumNodeBaseType]) the member [key]; so a child
    pointer is seen here as [None] (null) or the pair of the child's key and
    base state. *)

Class NodeBaseType (T B : Type) : Type := {
  NodeBase_ctor : T -> B;
  NodeBase_UpdateNodeState : T -> option (T * B) -> option (T * B) -> B
}.

(** [DefaultNodeBaseType]: no state. *)
#[export] Instance DefaultNodeBaseType (T : Type) : NodeBaseType T unit := {
  NodeBase_ctor := fun _ => tt;
  NodeBase_UpdateNodeState := fun _ _ _ => tt
}.

(** Index of a child: [children[0]] or [children[1]]. *)
Inductive ChildIndex : Type := I0 | I1.

(** [1 - ic] *)
Definition other (ic : ChildIndex) : ChildIndex :=
  match ic with I0 => I1 | I1 => I0 end.

Definition is0 (ic : ChildIndex) : bool :=
  match ic with I0 => true | I1 => false end.

Section AVLTree.

Variable T : Type.
Variable m_comp : T -> T -> bool.
(** [operator<] of the key type [T] *)
Variable operator_lt : T -> T -> bool.
Variable B : Type.
Context {NB : NodeBaseType T B}.

(** ** Nodes *)

Inductive Node : Type :=
| nullptr
| node (height : nat) (key : T) (base : B) (child0 child1 : Node).

(** [new Node(v)] *)
Definition new_Node (v : T) : Node :=
  node 1 v (NodeBase_ctor v) nullptr nullptr.

(** [p ? p->height : 0] *)
Definition height_or_0 (p : Node) : nat :=
  match p with
  | nullptr => 0
  | node h _ _ _ _ => h
  end.

Definition children (p : Node) (i : ChildIndex) : Node :=
  match p with
  | nullptr => nullptr
  | node _ _ _ c0 c1 => match i with I0 => c0 | I1 => c1 end
  end.

Definition set_children (p : Node) (i : ChildIndex) (c : Node) : Node :=
  match p with
  | nullptr => nullptr
  | node h k b c0 c1 =>
      match i with
      | I0 => node h k b c c1
      | I1 => node h k b c0 c
      end
  end.

Definition is_null (p : Node) : bool :=
  match p with nullptr => true | _ => false end.

(** What a base-class method sees through a child pointer. *)
Definition as_base (p : Node) : option (T * B) :=
  match p with
  | nullptr => None
  | node _ k b _ _ => Some (k, b)
  end.

(** [Node::UpdateNodeState] (called on non-null nodes only). *)
Definition UpdateNodeState (p : Node) : Node :=
  match p with
  | nullptr => nullptr
  | node _ k _ c0 c1 =>
      let lh := height_or_0 c0 in
      let rh := height_or_0 c1 in
      node (1 + Nat.max lh rh) k
           (NodeBase_UpdateNodeState k (as_base c0) (as_base c1)) c0 c1
  end.

(** ** Parent chains

    A [Parent] is a node seen from one of its children: the index of the slot
    the child hangs in, the node's own fields and its other child. *)

Record Parent : Type := mkParent {
  slot : ChildIndex;
  p_height : nat;
  p_key : T;
  p_base : B;
  p_other : Node
}.

(** The parent node with [c] in the slot. *)
Definition plug (f : Parent) (c : Node) : Node :=
  match slot f with
  | I0 => node (p_height f) (p_key f) (p_base f) c (p_other f)
  | I1 => node (p_height f) (p_key f) (p_base f) (p_other f) c
  end.

(** The whole tree around a subtree. *)
Fixpoint plug_all (up : list Parent) (c : Node) : Node :=
  match up with
  | [] => c
  | f :: up' => plug_all up' (plug f c)
  end.

(** ** Rotations and rebalancing *)

(** [RotateOnce(p, ic)]: the node in slot [p] goes down, its child [ic] comes
    up.  The result is the new content of the slot; only the node that went
    down had its state recomputed. *)
Definition RotateOnce (p : Node) (ic : ChildIndex) : Result Node :=
  match p, children p ic with
  | nullptr, _ => Undefined
  | _, nullptr => Undefined
  | root, A =>
      let E := children A (other ic) in
      Ok (set_children A (other ic) (UpdateNodeState (set_children root ic E)))
  end.

(** [DoRotations(p, ic)]: [ic] is the direction of the taller subtree. *)
Definition DoRotations (p : Node) (ic : ChildIndex) : Result Node :=
  match children p ic with
  | nullptr => Undefined
  | A =>
      let hD := height_or_0 (children A ic) in
      let hE := height_or_0 (children A (other ic)) in
      p1 <- (if hD <? hE
             then A' <- RotateOnce A (other ic) ;; Ok (set_children p ic A')
             else Ok p) ;;
      nr <- RotateOnce p1 ic ;;
      Ok (UpdateNodeState nr)
  end.

(** One round of the [for] loop of [Rebalance]; [h] holds the heights read
    before the loop. *)
Definition Rebalance_round (h : ChildIndex -> nat) (i : ChildIndex)
  (st : Node * bool) : Result (Node * bool) :=
  let '(p, rotated) := st in
  if h (other i) + 1 <? h i then
    assert! (h i =? h (other i) + 2) ;;
    p' <- DoRotations p i ;;
    Ok (p', true)
  else Ok (p, rotated).

(** The body of [Rebalance(p)] for a non-null [p], up to the recursive call:
    the result is the node now in [p]'s slot. *)
Definition Rebalance_node (p : Node) : Result Node :=
  match p with
  | nullptr => Undefined
  | _ =>
      let h := fun i => height_or_0 (children p i) in
      st0 <- Rebalance_round h I0 (p, false) ;;
      '(p', rotated) <- Rebalance_round h I1 st0 ;;
      Ok (if rotated : bool then p' else UpdateNodeState p')
  end.

(** [Rebalance(p)].  [up] is [p] followed by its ancestors, empty when [p] is
    null; [c] is what hangs in the slot of [p] through which the caller
    arrived.  The result is the root of the tree afterwards. *)
Fixpoint Rebalance (up : list Parent) (c : Node) : Result Node :=
  match up with
  | [] => Ok c
  | f :: up' => p' <- Rebalance_node (plug f c) ;; Rebalance up' p'
  end.

(** ** Searching *)

(** [FindImpl(v, pNode)]; [up] is the chain of ancestors of [pNode].  The
    result is the node found and its ancestors. *)
Fixpoint FindImpl (v : T) (pNode : Node) (up : list Parent)
  : Node * list Parent :=
  match pNode with
  | nullptr => (pNode, up)
  | node h k b c0 c1 =>
      if m_comp v k then
        match c0 with
        | nullptr => (pNode, up)
        | _ => FindImpl v c0 (mkParent I0 h k b c1 :: up)
        end
      else if m_comp k v then
        match c1 with
        | nullptr => (pNode, up)
        | _ => FindImpl v c1 (mkParent I1 h k b c0 :: up)
        end
      else (pNode, up)
  end.

Definition Find (m_root : Node) (v : T) : Node * list Parent :=
  FindImpl v m_root [].

(** [while( p->children[dir] ) p = p->children[dir].get();] *)
Fixpoint descend (dir : ChildIndex) (p : Node) (up : list Parent)
  : Node * list Parent :=
  match p with
  | nullptr => (p, up)
  | node h k b c0 c1 =>
      match dir with
      | I0 => match c0 with
              | nullptr => (p, up)
              | _ => descend dir c0 (mkParent I0 h k b c1 :: up)
              end
      | I1 => match c1 with
              | nullptr => (p, up)
              | _ => descend dir c1 (mkParent I1 h k b c0 :: up)
              end
      end
  end.

(** [GetExtreme(dir)] *)
Definition GetExtreme (m_root : Node) (dir : ChildIndex) : Node :=
  match m_root with
  | nullptr => nullptr
  | _ => fst (descend dir m_root [])
  end.

Definition GetMin (m_root : Node) : Node := GetExtreme m_root I0.
Definition GetMax (m_root : Node) : Node := GetExtreme m_root I1.

(** [VisitInOrder(f)]: the keys in the order in which [f] receives them. *)
Fixpoint VisitInOrder (p : Node) : list T :=
  match p with
  | nullptr => []
  | node _ k _ c0 c1 => VisitInOrder c0 ++ k :: VisitInOrder c1
  end.

(** ** Add *)

Definition AddChild (p : Node) (dir : ChildIndex) (v : T) : Result Node :=
  match p with
  | nullptr => Undefined
  | _ =>
      assert! (is_null (children p dir)) ;;
      Ok (set_children p dir (new_Node v))
  end.

(** [GetKey()] of the node behind a pointer. *)
Definition GetKey (p : Node) : option T :=
  match p with
  | nullptr => None
  | node _ k _ _ _ => Some k
  end.

(** [Add(v)]: the returned flag and the root afterwards. *)
Definition Add (m_root : Node) (v : T) : Result (bool * Node) :=
  match m_root with
  | nullptr => Ok (true, new_Node v)
  | _ =>
      let '(where_, up) := Find m_root v in
      match where_ with
      | nullptr => Undefined
      | node _ k _ _ _ =>
          if m_comp v k then
            w <- AddChild where_ I0 v ;;
            r <- Rebalance up (UpdateNodeState w) ;;
            Ok (true, r)
          else if m_comp k v then
            w <- AddChild where_ I1 v ;;
            r <- Rebalance up (UpdateNodeState w) ;;
            Ok (true, r)
          else Ok (false, m_root)
      end
  end.

(** The tree after [Add] was called for each key of a list in turn. *)
Fixpoint AddAll (m_root : Node) (keys : list T) : Result Node :=
  match keys with
  | [] => Ok m_root
  | v :: keys' => '(_, m_root') <- Add m_root v ;; AddAll m_root' keys'
  end.

(** ** Delete *)

(** The slot of [p] receives [p]'s left child. *)
Definition DeleteNoRightChild (p : Node) (up : list Parent) : Result Node :=
  Rebalance up (children p I0).

(** [next] is [p]'s right child and has no left child: it takes [p]'s place
    and [p]'s left child. *)
Definition DeleteNextIsImmediateChild (p : Node) (up : list Parent)
  (next : Node) : Result Node :=
  match next with
  | nullptr => Undefined
  | _ =>
      next' <- Rebalance_node (set_children next I0 (children p I0)) ;;
      Rebalance up next'
  end.

(** [next] lies deeper in [p]'s right subtree; [nup] is the chain of its
    ancestors up to and including [p]'s right child.  [next] takes [p]'s
    place and children, its own right child takes its old place, and the walk
    starts at its old parent: it passes [next], now the parent of [p]'s right
    child, and goes on through the ancestors of [p].  The assertion is on
    what [p] received for its left child, the old left child of [next]. *)
Definition DeleteNextNotImmediateChild (p : Node) (up : list Parent)
  (next : Node) (nup : list Parent) : Result Node :=
  match next with
  | nullptr => Undefined
  | node hn kn bn n0 n1 =>
      assert! (is_null n0) ;;
      Rebalance (nup ++ mkParent I1 hn kn bn (children p I0) :: up) n1
  end.

(** [Delete(v)]: the returned flag and the root afterwards. *)
Definition Delete (m_root : Node) (v : T) : Result (bool * Node) :=
  let '(p, up) := Find m_root v in
  match p with
  | nullptr => Ok (false, m_root)
  | node _ k _ _ c1 =>
      if m_comp v k || m_comp k v then Ok (false, m_root)
      else
        r <- match c1 with
             | nullptr => DeleteNoRightChild p up
             | _ =>
                 let '(next, nup) := descend I0 c1 [] in
                 match nup with
                 | [] => DeleteNextIsImmediateChild p up next
                 | _ => DeleteNextNotImmediateChild p up next nup
                 end
             end ;;
        Ok (true, r)
  end.

(** ** Merge *)

(** [ExtractMax()]: the detached node and the root afterwards. *)
Definition ExtractMax (m_root : Node) : Result (Node * Node) :=
  assert! (negb (is_null m_root)) ;;
  let '(p, up) := descend I1 m_root [] in
  r <- Rebalance up (children p I0) ;;
  Ok (set_children p I0 nullptr, r).

(** [SetRootAndTwoSubtrees]: the new content of the slot [fromParent]. *)
Definition SetRootAndTwoSubtrees (newNode child1 child2 : Node)
  : Result Node :=
  match newNode with
  | nullptr => Undefined
  | _ =>
      Ok (UpdateNodeState
            (set_children (set_children newNode I0 child1) I1 child2))
  end.

(** The [while(true)] loop of [MergeWithRoot]: [p] walks down the taller tree
    along [dir]; the result is the root of that tree after the splice and the
    rebalancing. *)
Fixpoint MergeWithRoot_loop (root treeToHang : Node) (dir : ChildIndex)
  (hMin : nat) (p : Node) (up : list Parent) : Result Node :=
  match p with
  | nullptr => Undefined
  | node h k b c0 c1 =>
      let c := match dir with I0 => c0 | I1 => c1 end in
      let sibling := match dir with I0 => c1 | I1 => c0 end in
      let hNext := height_or_0 c in
      if (hMin + 1 =? hNext) || (hNext =? hMin) then
        let child1 := if is0 dir then treeToHang else c in
        let child2 := if is0 dir then c else treeToHang in
        n <- SetRootAndTwoSubtrees root child1 child2 ;;
        Rebalance (mkParent dir h k b sibling :: up) n
      else
        MergeWithRoot_loop root treeToHang dir hMin c
                           (mkParent dir h k b sibling :: up)
  end.

(** [MergeWithRoot(root, rightTree)]: the roots of this tree and of
    [rightTree] afterwards. *)
Definition MergeWithRoot (m_root root rightTree : Node)
  : Result (Node * Node) :=
  assert! (negb (is_null root) && is_null (children root I0)
           && is_null (children root I1)) ;;
  let h1 := height_or_0 m_root in
  let h2 := height_or_0 rightTree in
  if (h2 <=? h1 + 1) && (h1 <=? h2 + 1) then
    n <- SetRootAndTwoSubtrees root m_root rightTree ;;
    Ok (n, nullptr)
  else if h2 <? h1 then
    r <- MergeWithRoot_loop root rightTree I1 h2 m_root [] ;;
    Ok (r, nullptr)
  else
    r <- MergeWithRoot_loop root m_root I0 h1 rightTree [] ;;
    (* [if( h1 < h2 ) m_root.swap( rightTree.m_root )]: here [h1 <= h2], and
       [h1 = h2] left through the first branch *)
    if h1 <? h2 then Ok (r, nullptr) else Undefined.

(** [a->GetKey() < b->GetKey()], as the assertion of [MergeWith] writes it:
    with [operator<] of the keys, not with the comparer. *)
Definition key_less (a b : Node) : bool :=
  match a, b with
  | node _ ka _ _ _, node _ kb _ _ _ => operator_lt ka kb
  | _, _ => false
  end.

(** [MergeWith(t)]: the roots of this tree and of [t] afterwards. *)
Definition MergeWith (m_root t : Node) : Result (Node * Node) :=
  assert! (is_null m_root || is_null t
           || key_less (GetMax m_root) (GetMin t)) ;;
  match m_root with
  | nullptr => Ok (t, m_root)
  | _ =>
      '(mx, rest) <- ExtractMax m_root ;;
      MergeWithRoot rest mx t
  end.

(** ** Split *)

(** [p->parent && p == p->parent->children[0].get()], from the chain of
    ancestors of [p]. *)
Definition is_child0 (up : list Parent) : bool :=
  match up with
  | [] => false
  | f :: _ => is0 (slot f)
  end.

(** [PrepareInitialSplittingState(p, lt, rt, nodeGoesLeft)]: the returned
    flag and the roots of [lt] and [rt] afterwards. *)
Definition PrepareInitialSplittingState (p : Node) (up : list Parent)
  (lt rt : Node) (nodeGoesLeft : bool) : Result (bool * Node * Node) :=
  match p with
  | nullptr => Undefined
  | _ =>
      let lt1 := children p I0 in
      let rt1 := children p I1 in
      let res := is_child0 up in
      let midTree0 := set_children (set_children p I0 lt) I1 rt in
      assert! (negb (is_null midTree0)) ;;
      let midTree := UpdateNodeState midTree0 in
      if nodeGoesLeft then
        '(lt2, _) <- MergeWith lt1 midTree ;;
        Ok (res, lt2, rt1)
      else
        '(mid2, _) <- MergeWith midTree rt1 ;;
        Ok (res, lt1, mid2)
  end.

(** [DoOneSplittingStep(p, isLeftChild, lt, rt)]: the returned flag and the
    roots of [lt] and [rt] afterwards. *)
Definition DoOneSplittingStep (p : Node) (up : list Parent)
  (isLeftChild : bool) (lt rt : Node) : Result (bool * Node * Node) :=
  match p with
  | nullptr => Undefined
  | _ =>
      let res := is_child0 up in
      let dir := if isLeftChild then I0 else I1 in
      assert! (is_null (children p dir)) ;;
      let mergedTree := children p (other dir) in
      let root := UpdateNodeState (set_children p (other dir) nullptr) in
      if isLeftChild then
        '(rt2, _) <- MergeWithRoot rt root mergedTree ;;
        Ok (res, lt, rt2)
      else
        '(merged2, _) <- MergeWithRoot mergedTree root lt ;;
        Ok (res, merged2, rt)
  end.

(** The [while( p )] loop of [Split]; [up] is [p] and its ancestors, each
    with the slot towards the split node already emptied. *)
Fixpoint Split_loop (up : list Parent) (isLeftChild : bool) (lt rt : Node)
  : Result (Node * Node) :=
  match up with
  | [] => Ok (lt, rt)
  | f :: up' =>
      '(nextLeftChild, lt', rt') <-
         DoOneSplittingStep (plug f nullptr) up' isLeftChild lt rt ;;
      Split_loop up' nextLeftChild lt' rt'
  end.

(** A node handle held by a caller: the way from the root to the node. *)
Definition Handle : Type := list ChildIndex.

(** The node a handle points to, with its ancestors; [None] when the handle
    points to no live node of the tree. *)
Fixpoint locate (path : Handle) (p : Node) (up : list Parent) {struct p}
  : option (Node * list Parent) :=
  match p with
  | nullptr => None
  | node h k b c0 c1 =>
      match path with
      | [] => Some (p, up)
      | I0 :: path' => locate path' c0 (mkParent I0 h k b c1 :: up)
      | I1 :: path' => locate path' c1 (mkParent I1 h k b c0 :: up)
      end
  end.

(** The part of [Split] after the two early exits. *)
Definition Split_body (m_root : Node) (path : Handle) (nodeGoesLeft : bool)
  : Result (Node * Node) :=
  match locate path m_root [] with
  | None => Undefined
  | Some (p, up) =>
      '(isLeftChild, lt, rt) <-
         PrepareInitialSplittingState p up nullptr nullptr nodeGoesLeft ;;
      Split_loop up isLeftChild lt rt
  end.

(** [Split(p, nodeGoesLeft)]; a null [p] is [None].  The result is the root
    of this tree when the call ends, and the outcome: the returned tree, or
    how the call failed. *)
Definition Split (m_root : Node) (p : option Handle) (nodeGoesLeft : bool)
  : Node * Result Node :=
  match m_root with
  | nullptr => (m_root, Ok nullptr)
  | _ =>
      match p with
      | None =>
          (m_root,
           Throw (invalid_argument "Split: the p argument must be non-null"))
      | Some path =>
          match Split_body m_root path nodeGoesLeft with
          | Ok (lt, rt) => (lt, Ok rt)
          | Throw e => (m_root, Throw e)
          | AssertFailed => (m_root, AssertFailed)
          | Undefined => (m_root, Undefined)
          end
      end
  end.

End AVLTree.

Arguments nullptr {T B}.

(** * AVLUtils.h *)

(** ** [TreeSizeNodeBaseType] and [GetNthSmallest] *)

#[export] Instance TreeSizeNodeBaseType (T : Type) : NodeBaseType T nat := {
  NodeBase_ctor := fun _ => 1;
  NodeBase_UpdateNodeState := fun _ p1 p2 =>
    let treeSize := 1 in
    let treeSize := match p1 with
                    | Some (_, s1) => treeSize + s1
                    | None => treeSize
                    end in
    let treeSize := match p2 with
                    | Some (_, s2) => treeSize + s2
                    | None => treeSize
                    end in
    treeSize
}.

Section OrderStatistics.

Variable T : Type.

(** [p->GetSize()] *)
Definition GetSize (p : Node T nat) : nat :=
  match p with
  | nullptr => 0
  | node _ _ treeSize _ _ => treeSize
  end.

Definition index_out_of_range : Exception :=
  invalid_argument "Index out of range".

(** [GetNthSmallestImpl(p, i)]: the node found. *)
Fixpoint GetNthSmallestImpl (p : Node T nat) (i : nat)
  : Result (Node T nat) :=
  match p with
  | nullptr => Throw index_out_of_range
  | node _ _ treeSize c0 c1 =>
      if treeSize <=? i then Throw index_out_of_range
      else
        let ls := match c0 with
                  | nullptr => 0
                  | _ => GetSize c0
                  end in
        if i <? ls then GetNthSmallestImpl c0 i
        else if i =? ls then Ok p
        else GetNthSmallestImpl c1 (i - ls - 1)
  end.

Definition GetNthSmallest (t : Node T nat) (i : nat) : Result (Node T nat) :=
  GetNthSmallestImpl t i.

End OrderStatistics.

(** ** [SumNodeBaseType] and [GetRangeSum]

    Keys and sums are integers ([ValueType = SummationType]); the arithmetic
    is that of [Z], the source leaving signed overflow undefined.

    [UpdateNodeState] adds [p1->key] and [p2->key] where [SumNodeBaseType]
    itself has no member of that name: read as written, it is the key of the
    node behind the pointer that is added, not its [sum]. *)

#[export] Instance SumNodeBaseType : NodeBaseType Z Z := {
  NodeBase_ctor := fun v => v;
  NodeBase_UpdateNodeState := fun v p1 p2 =>
    let sum := v in
    let sum := match p1 with
               | Some (key1, _) => (sum + key1)%Z
               | None => sum
               end in
    let sum := match p2 with
               | Some (key2, _) => (sum + key2)%Z
               | None => sum
               end in
    sum
}.

Section RangeSum.

Variable comp : Z -> Z -> bool.

(** [std::min(a, b, comp)] and [std::max(a, b, comp)] *)
Definition std_min (a b : Z) : Z := if comp b a then b else a.
Definition std_max (a b : Z) : Z := if comp a b then b else a.

Fixpoint GetRangeSumImpl (p : Node Z Z) (knowMin : bool) (minV : Z)
  (knowMax : bool) (maxV : Z) (l h : Z) : Z :=
  match p with
  | nullptr => 0%Z
  | node _ key sum c0 c1 =>
      if knowMin && knowMax && negb (comp minV l) && negb (comp h maxV)
      then sum
      else
        let res := 0%Z in
        let res := if negb (comp key l) && negb (comp h key)
                   then (res + key)%Z else res in
        let res :=
          if (negb knowMin && comp l key)
             || negb (comp (std_min key h) (std_max minV l))
          then (res + GetRangeSumImpl c0 knowMin minV true key l h)%Z
          else res in
        let res :=
          if (negb knowMax && comp key h)
             || negb (comp (std_min maxV h) (std_max key l))
          then (res + GetRangeSumImpl c1 true key knowMax maxV l h)%Z
          else res in
        res
  end.

Definition GetRangeSum (t : Node Z Z) (lb ub : Z) : Z :=
  GetRangeSumImpl t false lb false ub lb ub.

End RangeSum.

(** * Invariants and auxiliary notions *)

(** The comparer is a strict total order on the keys. *)
Record StrictTotalOrder (T : Type) (comp : T -> T -> bool) : Prop := {
  comp_irrefl : forall a, comp a a = false;
  comp_trans : forall a b c, comp a b = true -> comp b c = true ->
                             comp a c = true;
  comp_total : forall a b, comp a b = false -> comp b a = false -> a = b
}.

Section Invariants.

Variable T : Type.
Variable m_comp : T -> T -> bool.
Variable operator_lt : T -> T -> bool.
Variable B : Type.
Context {NB : NodeBaseType T B}.

Definition less (a b : T) : Prop := m_comp a b = true.

(** Height of the tree below a pointer, recomputed from its shape. *)
Fixpoint tree_height (p : Node T B) : nat :=
  match p with
  | nullptr => 0
  | node _ _ _ c0 c1 => 1 + Nat.max (tree_height c0) (tree_height c1)
  end.

(** [P] holds of every node below [p] (and of [p] itself). *)
Fixpoint every_node (P : Node T B -> Prop) (p : Node T B) : Prop :=
  match p with
  | nullptr => True
  | node _ _ _ c0 c1 => P p /\ every_node P c0 /\ every_node P c1
  end.

(** The stored height of a node follows from the stored heights of its
    children. *)
Definition height_correct (p : Node T B) : Prop :=
  height_or_0 p =
  1 + Nat.max (height_or_0 (children p I0)) (height_or_0 (children p I1)).

(** The heights of the two subtrees of a node differ by at most one. *)
Definition balanced (p : Node T B) : Prop :=
  tree_height (children p I0) <= tree_height (children p I1) + 1 /\
  tree_height (children p I1) <= tree_height (children p I0) + 1.

(** Height correctness and balance of every node, in the form the proofs
    use: on stored heights. *)
Fixpoint avl (p : Node T B) : Prop :=
  match p with
  | nullptr => True
  | node h _ _ c0 c1 =>
      avl c0 /\ avl c1 /\
      h = 1 + Nat.max (height_or_0 c0) (height_or_0 c1) /\
      height_or_0 c0 <= height_or_0 c1 + 1 /\
      height_or_0 c1 <= height_or_0 c0 + 1
  end.

(** The in-order traversal is strictly ascending. *)
Definition ordered (p : Node T B) : Prop :=
  StronglySorted less (VisitInOrder p).

(** The state of the base class of every node is what [UpdateNodeState]
    computes from the node's key and children. *)
Fixpoint augmented (p : Node T B) : Prop :=
  match p with
  | nullptr => True
  | node _ k b c0 c1 =>
      augmented c0 /\ augmented c1 /\
      b = NodeBase_UpdateNodeState k (as_base c0) (as_base c1)
  end.

(** A freshly constructed node carries the state [UpdateNodeState] would
    give a node without children. *)
Definition ctor_agrees : Prop :=
  forall v : T, NodeBase_ctor v = NodeBase_UpdateNodeState v None None.

(** [p] is one of the nodes of the tree [t]. *)
Fixpoint node_of (p t : Node T B) : Prop :=
  match t with
  | nullptr => False
  | node _ _ _ c0 c1 => p = t \/ node_of p c0 \/ node_of p c1
  end.

(** Keys visited before and after the subtree a chain of parents surrounds. *)
Fixpoint keys_before (up : list (Parent T B)) : list T :=
  match up with
  | [] => []
  | f :: up' =>
      keys_before up' ++
      match slot f with
      | I0 => []
      | I1 => VisitInOrder (p_other f) ++ [p_key f]
      end
  end.

Fixpoint keys_after (up : list (Parent T B)) : list T :=
  match up with
  | [] => []
  | f :: up' =>
      match slot f with
      | I0 => p_key f :: VisitInOrder (p_other f)
      | I1 => []
      end ++ keys_after up'
  end.

(** A chain of parents taken from an AVL tree, around a subtree whose height
    was [h0]: every sibling is an AVL tree of a height within one of the
    height on the chain's side. *)
Fixpoint chain_ok (h0 : nat) (up : list (Parent T B)) : Prop :=
  match up with
  | [] => True
  | f :: up' =>
      avl (p_other f) /\
      h0 <= height_or_0 (p_other f) + 1 /\
      height_or_0 (p_other f) <= h0 + 1 /\
      chain_ok (1 + Nat.max h0 (height_or_0 (p_other f))) up'
  end.

(** The height at the top of such a chain. *)
Fixpoint chain_height (h0 : nat) (up : list (Parent T B)) : nat :=
  match up with
  | [] => h0
  | f :: up' => chain_height (1 + Nat.max h0 (height_or_0 (p_other f))) up'
  end.

(** The other child of every parent in the chain is augmented. *)
Definition chain_augmented (up : list (Parent T B)) : Prop :=
  Forall (fun f => augmented (p_other f)) up.

(** [v] lies strictly between the keys before and the keys after a chain. *)
Definition between (up : list (Parent T B)) (v : T) : Prop :=
  Forall (fun x => less x v) (keys_before up) /\
  Forall (fun x => less v x) (keys_after up).

(** Key of the node a handle points to. *)
Definition key_at (t : Node T B) (path : Handle) : option T :=
  match locate path t [] with
  | Some (node _ k _ _ _, _) => Some k
  | _ => None
  end.

(** Trees obtained from the empty tree by [Add], [Delete], [MergeWith] and
    [Split], every call meeting its preconditions: [MergeWith] is given two
    trees with all keys of the first less than all keys of the second, and
    [Split] a handle to a live node of the tree (or is called on the empty
    tree).  Only calls that return count, whatever [operator<] is. *)
Inductive reachable : Node T B -> Prop :=
| reach_empty : reachable nullptr
| reach_Add t v res t' :
    reachable t -> Add m_comp t v = Ok (res, t') -> reachable t'
| reach_Delete t v res t' :
    reachable t -> Delete m_comp t v = Ok (res, t') -> reachable t'
| reach_MergeWith_this t1 t2 t1' t2' :
    reachable t1 -> reachable t2 ->
    (forall a b, In a (VisitInOrder t1) -> In b (VisitInOrder t2) ->
                 less a b) ->
    MergeWith operator_lt t1 t2 = Ok (t1', t2') -> reachable t1'
| reach_MergeWith_other t1 t2 t1' t2' :
    reachable t1 -> reachable t2 ->
    (forall a b, In a (VisitInOrder t1) -> In b (VisitInOrder t2) ->
                 less a b) ->
    MergeWith operator_lt t1 t2 = Ok (t1', t2') -> reachable t2'
| reach_Split_this t p goesLeft t' r :
    reachable t -> (t = nullptr \/ exists path, p = Some path /\
                                   locate path t [] <> None) ->
    Split operator_lt t p goesLeft = (t', Ok r) -> reachable t'
| reach_Split_returned t p goesLeft t' r :
    reachable t -> (t = nullptr \/ exists path, p = Some path /\
                                   locate path t [] <> None) ->
    Split operator_lt t p goesLeft = (t', Ok r) -> reachable r.

End Invariants.

(** * The rest of the tree's interface *)

Section Navigation.

Variable T : Type.
Variable m_comp : T -> T -> bool.
Variable B : Type.
Context {NB : NodeBaseType T B}.

(** [VisitPreOrder(f)] and [VisitPostOrder(f)]: the keys in the order in
    which [f] receives them. *)
Fixpoint VisitPreOrder (p : Node T B) : list T :=
  match p with
  | nullptr => []
  | node _ k _ c0 c1 => k :: VisitPreOrder c0 ++ VisitPreOrder c1
  end.

Fixpoint VisitPostOrder (p : Node T B) : list T :=
  match p with
  | nullptr => []
  | node _ k _ c0 c1 => VisitPostOrder c0 ++ VisitPostOrder c1 ++ [k]
  end.

(** [GetExtreme(dir)] as a pointer into the tree: the node with the chain of
    its ancestors. *)
Definition GetExtreme_at (m_root : Node T B) (dir : ChildIndex)
  : Node T B * list (Parent T B) :=
  match m_root with
  | nullptr => (nullptr, [])
  | _ => descend dir m_root []
  end.

(** The second loop of [GetNextImpl]: [p] climbs until it leaves a child
    slot [1 - dir]; the result is the parent reached, or null above the
    root. *)
Fixpoint GetNextImpl_climb (dir : ChildIndex) (p : Node T B)
  (up : list (Parent T B)) : Node T B * list (Parent T B) :=
  match up with
  | [] => (nullptr, [])
  | f :: up' =>
      match slot f, dir with
      | I0, I1 | I1, I0 => (plug f p, up')
      | _, _ => GetNextImpl_climb dir (plug f p) up'
      end
  end.

Definition invalid_handle : Exception :=
  invalid_argument
    "The handle does not represent a valid position within the tree.".

(** [GetNextImpl(cur, dir)]; [up] is the chain of ancestors of [cur].  The
    result is the node found with its ancestors, [(nullptr, [])] for a null
    result. *)
Definition GetNextImpl (cur : Node T B) (up : list (Parent T B))
  (dir : ChildIndex) : Result (Node T B * list (Parent T B)) :=
  match cur with
  | nullptr => Throw invalid_handle
  | node h k b c0 c1 =>
      match children cur dir with
      | nullptr => Ok (GetNextImpl_climb dir cur up)
      | c =>
          Ok (descend (other dir) c
                (mkParent dir h k b (children cur (other dir)) :: up))
      end
  end.

(** [GetNext(p)] and [GetPrev(p)] for a handle held by a caller; a null [p]
    is [None]. *)
Definition GetNextOrPrev (dir : ChildIndex) (m_root : Node T B)
  (p : option Handle) : Result (Node T B * list (Parent T B)) :=
  match p with
  | None => GetNextImpl nullptr [] dir
  | Some path =>
      match locate path m_root [] with
      | None => Undefined
      | Some (cur, up) => GetNextImpl cur up dir
      end
  end.

Definition GetNext := GetNextOrPrev I1.
Definition GetPrev := GetNextOrPrev I0.

(** The keys a caller meets who starts at a node and follows [GetNext] until
    it returns null, in at most [steps] steps. *)
Fixpoint follow_GetNext (steps : nat) (cur : Node T B)
  (up : list (Parent T B)) : Result (list T) :=
  match steps, cur with
  | 0, _ => Ok []
  | _, nullptr => Ok []
  | S n, node _ k _ _ _ =>
      '(q, uq) <- GetNextImpl cur up I1 ;;
      rest <- follow_GetNext n q uq ;;
      Ok (k :: rest)
  end.

(** The pointer [(cur, up)] is to a node of the tree [t], with key [k], that
    the in-order traversal visits after the keys [l1] and before the keys
    [l2]. *)
Definition points_at (t cur : Node T B) (up : list (Parent T B))
  (l1 : list T) (k : T) (l2 : list T) : Prop :=
  plug_all up cur = t /\
  exists h b c0 c1,
    cur = node h k b c0 c1 /\
    l1 = keys_before up ++ VisitInOrder c0 /\
    l2 = VisitInOrder c1 ++ keys_after up.

(** One step of the descent of [FindImpl] towards [v], seen from the frame
    of the node it left: into slot 0 when [v] compares less than the node's
    key, into slot 1 when it does not and the key compares less than [v]. *)
Definition went_towards (v : T) (f : Parent T B) : Prop :=
  match slot f with
  | I0 => m_comp v (p_key f) = true
  | I1 => m_comp v (p_key f) = false /\ m_comp (p_key f) v = true
  end.

(** The descent of [FindImpl] towards [v] ends at [p]: the comparison with
    the key of [p] points to no child of [p]. *)
Definition search_stops_at (v : T) (p : Node T B) : Prop :=
  match p with
  | nullptr => True
  | node _ k _ c0 c1 =>
      if m_comp v k then c0 = nullptr
      else if m_comp k v then c1 = nullptr
      else True
  end.

(** The condition under which [GetRangeSumImpl] returns a stored sum. *)
Definition takes_stored_sum (knowMin : bool) (minV : Z) (knowMax : bool)
  (maxV l h : Z) : bool :=
  knowMin && knowMax && negb (minV <? l)%Z && negb (h <? maxV)%Z.

End Navigation.

(** * Reference values and example trees *)

(** The sum of the keys [k] of a tree with [lo <= k <= hi]. *)
Definition sum_of_keys_in_range (t : Node Z Z) (lo hi : Z) : Z :=
  fold_right Z.add 0%Z
    (filter (fun k => (lo <=? k)%Z && (k <=? hi)%Z) (VisitInOrder t)).

(** The sum of all keys below a pointer. *)
Fixpoint subtree_sum (p : Node Z Z) : Z :=
  match p with
  | nullptr => 0%Z
  | node _ k _ c0 c1 => (k + subtree_sum c0 + subtree_sum c1)%Z
  end.

(** The same sum over a list of keys. *)
Definition sum_in_range (lo hi : Z) (l : list Z) : Z :=
  fold_right Z.add 0%Z (filter (fun k => (lo <=? k)%Z && (k <=? hi)%Z) l).

(** The sum stored in every node is the sum of the keys of its subtree. *)
Fixpoint sums_correct (p : Node Z Z) : Prop :=
  match p with
  | nullptr => True
  | node _ _ sum c0 c1 =>
      sum = subtree_sum p /\ sums_correct c0 /\ sums_correct c1
  end.

(** Along the descent of [GetRangeSumImpl] (with the usual order of the
    integers), every node at which a stored sum would be taken stores the sum
    of the keys of its subtree. *)
Fixpoint stored_sums_taken_are_right (p : Node Z Z) (knowMin : bool)
  (minV : Z) (knowMax : bool) (maxV l h : Z) : Prop :=
  match p with
  | nullptr => True
  | node _ k s c0 c1 =>
      (takes_stored_sum knowMin minV knowMax maxV l h = true ->
       s = subtree_sum p) /\
      stored_sums_taken_are_right c0 knowMin minV true k l h /\
      stored_sums_taken_are_right c1 true k knowMax maxV l h
  end.

(** The sum stored in every node [d] levels or more below [p] is the sum of
    the keys of its subtree; nothing is said of the nodes above. *)
Fixpoint sums_correct_from (d : nat) (p : Node Z Z) : Prop :=
  match p with
  | nullptr => True
  | node _ _ s c0 c1 =>
      (d = 0 -> s = subtree_sum p) /\
      sums_correct_from (pred d) c0 /\ sums_correct_from (pred d) c1
  end.

(** The sum policy in the words of the specification, for comparison with
    [SumNodeBaseType]: augmentation = key + left-sum-or-0 + right-sum-or-0.
    It is not an instance: it is named where it is meant. *)
Definition SumNodeBaseType_as_specified : NodeBaseType Z Z := {|
  NodeBase_ctor := fun v => v;
  NodeBase_UpdateNodeState := fun v p1 p2 =>
    (v + match p1 with Some (_, sum1) => sum1 | None => 0 end
       + match p2 with Some (_, sum2) => sum2 | None => 0 end)%Z
|}.

Definition tree_or_empty {T B : Type} (r : Result (Node T B)) : Node T B :=
  match r with
  | Ok t => t
  | _ => nullptr
  end.

(** The tree of the concrete scenarios: 5, 3, 8, 1, 4, 7, 9, 2, 6 added in
    that order, without augmentation and with the size augmentation. *)
Definition scenario_keys : list Z := [5; 3; 8; 1; 4; 7; 9; 2; 6]%Z.

Definition scenario_tree : Node Z unit :=
  Eval vm_compute in tree_or_empty (AddAll Z.ltb nullptr scenario_keys).

Definition scenario_tree_sized : Node Z nat :=
  Eval vm_compute in tree_or_empty (AddAll Z.ltb nullptr scenario_keys).

(** A tree of three nodes, and the pieces the round trip goes through. *)
Definition tree_123 : Node Z unit :=
  Eval vm_compute in tree_or_empty (AddAll Z.ltb nullptr [2; 1; 3]%Z).

Definition tree_1 : Node Z unit := node 1 1%Z tt nullptr nullptr.

Definition tree_12 : Node Z unit :=
  node 2 1%Z tt nullptr (node 1 2%Z tt nullptr nullptr).

Definition tree_23 : Node Z unit :=
  node 2 2%Z tt nullptr (node 1 3%Z tt nullptr nullptr).

(** Twelve keys whose insertion order gives a tree of height five, with the
    sum augmentation. *)
Definition range_sum_keys : list Z :=
  [8; 3; 11; 2; 6; 10; 12; 1; 4; 7; 9; 5]%Z.

Definition range_sum_tree : Node Z Z :=
  Eval vm_compute in tree_or_empty (AddAll Z.ltb nullptr range_sum_keys).

(** [tree_123] after [Delete(3)]. *)
Definition tree_21 : Node Z unit :=
  node 2 2%Z tt (node 1 1%Z tt nullptr nullptr) nullptr.

(** [tree_123] after [Add(4)]. *)
Definition tree_1234 : Node Z unit :=
  Eval vm_compute in tree_or_empty (AddAll Z.ltb tree_123 [4%Z]).

(** The node of [tree_123] that holds 3, and the chain from it to the
    root. *)
Definition node_3 : Node Z unit := node 1 3%Z tt nullptr nullptr.

Definition above_node_3 : list (Parent Z unit) :=
  [mkParent I1 2 2%Z tt tree_1].

(** The tree of the scenarios with the sum augmentation; its height is
    four. *)
Definition scenario_tree_summed : Node Z Z :=
  Eval vm_compute in tree_or_empty (AddAll Z.ltb nullptr scenario_keys).

(** Trees of [AVLTree<int, std::greater<int>>]: the comparer is [Z.gtb],
    while [operator<] of the keys is [Z.ltb]. *)
Definition descending_54 : Node Z unit :=
  Eval vm_compute in tree_or_empty (AddAll Z.gtb nullptr [5; 4]%Z).

Definition descending_21 : Node Z unit :=
  Eval vm_compute in tree_or_empty (AddAll Z.gtb nullptr [2; 1]%Z).

Definition descending_321 : Node Z unit :=
  Eval vm_compute in tree_or_empty (AddAll Z.gtb nullptr [2; 1; 3]%Z).

(** * Proofs *)


Ltac splits := repeat match goal with |- _ /\ _ => split end.

Ltac list_eq :=
  repeat (progress (simpl; rewrite <- ?app_assoc, ?app_nil_r));
  try reflexivity.

#[local] Arguments Nat.max : simpl never.

Section Proofs.

Variable T : Type.
Variable m_comp : T -> T -> bool.
Variable B : Type.
Context {NB : NodeBaseType T B}.

Local Abbreviation Node := (Node T B).
Local Abbreviation Parent := (Parent T B).

(** *** The traversal of a subtree within its chain of parents *)

Lemma VisitInOrder_plug (f : Parent) (c : Node) :
  VisitInOrder (plug f c) =
  keys_before [f] ++ VisitInOrder c ++ keys_after [f].
Proof.
  destruct f as [[] h k b o]; unfold plug; simpl.
  - now rewrite app_nil_r.
  - now rewrite app_nil_r, <- app_assoc.
Qed.

Lemma VisitInOrder_plug_all (up : list Parent) (c : Node) :
  VisitInOrder (plug_all up c) =
  keys_before up ++ VisitInOrder c ++ keys_after up.
Proof.
  revert c; induction up as [|f up IH]; intro c; simpl.
  - now rewrite app_nil_r.
  - rewrite IH, VisitInOrder_plug; simpl.
    rewrite !app_nil_r, <- !app_assoc. reflexivity.
Qed.

(** *** Rotations and the walk to the root

    A node whose subtrees are AVL trees with heights at most two apart
    leaves [Rebalance_node] as an AVL tree with the same traversal, and a
    height within one of the taller subtree's.  Along a chain taken from an
    AVL tree this carries up to the root. *)

Lemma DoRotations_ok (p : Node) (ic : ChildIndex) :
  avl (children p ic) -> avl (children p (other ic)) ->
  height_or_0 (children p ic) = height_or_0 (children p (other ic)) + 2 ->
  exists r, DoRotations p ic = Ok r /\ avl r /\
            VisitInOrder r = VisitInOrder p /\
            height_or_0 (children p ic) <= height_or_0 r <=
            height_or_0 (children p ic) + 1 /\
            (augmented (children p ic) ->
             augmented (children p (other ic)) -> augmented r).
Proof.
  destruct p as [|h k b c0 c1]; [simpl; lia|].
  destruct ic; simpl; intros A1 A2 Hh.
  - destruct c0 as [|h0 k0 b0 D E]; [simpl in Hh; lia|].
    unfold DoRotations; simpl.
    destruct (Nat.ltb_spec (height_or_0 D) (height_or_0 E)).
    + destruct E as [|hE kE bE F G]; [simpl in *; lia|].
      simpl. eexists; split; [reflexivity|].
      simpl in *. splits; try tauto; try lia; try list_eq;
        intuition auto.
    + simpl. eexists; split; [reflexivity|].
      simpl in *. splits; try tauto; try lia; try list_eq;
        intuition auto.
  - destruct c1 as [|h1 k1 b1 E D]; [simpl in Hh; lia|].
    unfold DoRotations; simpl.
    destruct (Nat.ltb_spec (height_or_0 D) (height_or_0 E)).
    + destruct E as [|hE kE bE F G]; [simpl in *; lia|].
      simpl. eexists; split; [reflexivity|].
      simpl in *. splits; try tauto; try lia; try list_eq;
        intuition auto.
    + simpl. eexists; split; [reflexivity|].
      simpl in *. splits; try tauto; try lia; try list_eq;
        intuition auto.
Qed.

Lemma Rebalance_node_ok (h : nat) (k : T) (b : B) (c0 c1 : Node) :
  avl c0 -> avl c1 ->
  height_or_0 c0 <= height_or_0 c1 + 2 ->
  height_or_0 c1 <= height_or_0 c0 + 2 ->
  exists r, Rebalance_node (node h k b c0 c1) = Ok r /\ avl r /\
            VisitInOrder r = VisitInOrder c0 ++ k :: VisitInOrder c1 /\
            Nat.max (height_or_0 c0) (height_or_0 c1) <= height_or_0 r /\
            height_or_0 r <= 1 + Nat.max (height_or_0 c0) (height_or_0 c1) /\
            (height_or_0 c0 <= height_or_0 c1 + 1 ->
             height_or_0 c1 <= height_or_0 c0 + 1 ->
             height_or_0 r =
             1 + Nat.max (height_or_0 c0) (height_or_0 c1)) /\
            (augmented c0 -> augmented c1 -> augmented r).
Proof.
  intros A0 A1 H01 H10.
  unfold Rebalance_node, Rebalance_round; simpl.
  destruct (Nat.ltb_spec (height_or_0 c1 + 1) (height_or_0 c0)) as [L0|L0].
  - replace (height_or_0 c0 =? height_or_0 c1 + 2) with true
      by (symmetry; apply Nat.eqb_eq; lia).
    destruct (@DoRotations_ok (node h k b c0 c1) I0) as (r & E & Ar & Vr & Hr & Gr);
      simpl; auto; try lia.
    simpl. rewrite E; simpl.
    destruct (Nat.ltb_spec (height_or_0 c0 + 1) (height_or_0 c1)); [lia|].
    simpl. exists r. simpl in *. splits; auto; lia.
  - simpl.
    destruct (Nat.ltb_spec (height_or_0 c0 + 1) (height_or_0 c1)) as [L1|L1].
    + replace (height_or_0 c1 =? height_or_0 c0 + 2) with true
        by (symmetry; apply Nat.eqb_eq; lia).
      destruct (@DoRotations_ok (node h k b c0 c1) I1) as (r & E & Ar & Vr & Hr & Gr);
        simpl; auto; try lia.
      simpl. rewrite E; simpl.
      exists r. simpl in *. splits; auto; lia.
    + simpl. eexists; split; [reflexivity|].
      simpl. splits; auto; lia.
Qed.

Lemma height_plug (f : Parent) (c : Node) :
  height_or_0 (plug f c) = p_height f.
Proof. unfold plug; destruct (slot f); reflexivity. Qed.

Lemma Rebalance_ok (up : list Parent) :
  forall (c : Node) (h0 : nat),
  chain_ok h0 up -> avl c ->
  h0 <= height_or_0 c + 1 -> height_or_0 c <= h0 + 1 ->
  exists r, Rebalance up c = Ok r /\ avl r /\
            VisitInOrder r = VisitInOrder (plug_all up c) /\
            chain_height h0 up <= height_or_0 r + 1 /\
            height_or_0 r <= chain_height h0 up + 1 /\
            (augmented c -> chain_augmented up -> augmented r).
Proof.
  induction up as [|f up IH]; intros c h0 Hc Ac H1 H2; simpl.
  - exists c; splits; auto.
  - destruct Hc as (Ao & Ho1 & Ho2 & Hup).
    assert (exists r, Rebalance_node (plug f c) = Ok r /\ avl r /\
              VisitInOrder r = VisitInOrder (plug f c) /\
              1 + Nat.max h0 (height_or_0 (p_other f)) <= height_or_0 r + 1 /\
              height_or_0 r <= 1 + Nat.max h0 (height_or_0 (p_other f)) + 1 /\
              (augmented c -> augmented (p_other f) -> augmented r))
      as (r & E & Ar & Vr & Hr1 & Hr2 & Gr).
    { destruct f as [[] h k b o]; unfold plug; simpl in *.
      - destruct (@Rebalance_node_ok h k b c o) as (r & E & Ar & Vr & G1 & G2 & G3 & G4);
          auto; try lia.
        exists r; splits; auto; try lia.
      - destruct (@Rebalance_node_ok h k b o c) as (r & E & Ar & Vr & G1 & G2 & G3 & G4);
          auto; try lia.
        exists r; splits; auto; try lia. }
    rewrite E; simpl.
    destruct (IH r _ Hup Ar) as (r' & E' & Ar' & Vr' & Hr1' & Hr2' & Gr');
      try lia.
    exists r'; splits; auto.
    + rewrite Vr', !VisitInOrder_plug_all, Vr. reflexivity.
    + intros Gc Gup. inversion Gup; subst. auto.
Qed.

(** *** Chains of parents *)

Lemma avl_plug_all (up : list Parent) :
  forall c : Node,
  avl (plug_all up c) ->
  avl c /\ chain_ok (height_or_0 c) up /\
  chain_height (height_or_0 c) up = height_or_0 (plug_all up c).
Proof.
  induction up as [|f up IH]; intros c A; simpl in *; auto.
  destruct (IH _ A) as (Ap & Hup & Hh).
  rewrite height_plug in Hup, Hh.
  destruct f as [[] h k b o]; unfold plug in Ap; simpl in *;
    destruct Ap as (A0 & A1 & -> & L1 & L2);
    repeat split; auto; try lia;
    try (rewrite Nat.max_comm; assumption).
Qed.

Lemma augmented_plug_all (up : list Parent) :
  forall c : Node,
  augmented (plug_all up c) -> augmented c /\ chain_augmented up.
Proof.
  unfold chain_augmented.
  induction up as [|f up IH]; intros c G; simpl in *.
  - split; auto.
  - apply IH in G. destruct G as (G & Gup).
    destruct f as [[] h k b o]; unfold plug in G; simpl in G;
      split; try constructor; simpl; tauto.
Qed.

Lemma chain_augmented_app (a b : list Parent) :
  chain_augmented (a ++ b) <-> chain_augmented a /\ chain_augmented b.
Proof. apply Forall_app. Qed.

(** The height of an AVL tree is at most the number of its nodes. *)
Lemma avl_height_le_nodes (t : Node) :
  avl t -> height_or_0 t <= length (VisitInOrder t).
Proof.
  induction t as [|h k b c0 IH0 c1 IH1]; simpl; auto.
  intros (A0 & A1 & -> & _). specialize (IH0 A0). specialize (IH1 A1).
  rewrite length_app. simpl. lia.
Qed.

Lemma chain_ok_app (a b : list Parent) (h0 : nat) :
  chain_ok h0 (a ++ b) <-> chain_ok h0 a /\ chain_ok (chain_height h0 a) b.
Proof.
  revert h0; induction a as [|f a IH]; intro h0; simpl.
  - tauto.
  - rewrite IH. tauto.
Qed.

Lemma keys_before_app (a b : list Parent) :
  keys_before (a ++ b) = keys_before b ++ keys_before a.
Proof.
  induction a as [|f a IH]; simpl.
  - now rewrite app_nil_r.
  - rewrite IH. now rewrite app_assoc.
Qed.

Lemma keys_after_app (a b : list Parent) :
  keys_after (a ++ b) = keys_after a ++ keys_after b.
Proof.
  induction a as [|f a IH]; simpl; auto.
  rewrite IH. now rewrite app_assoc.
Qed.

Lemma descend_spec (dir : ChildIndex) (n : Node) :
  forall up : list Parent,
  n <> nullptr ->
  exists h k b c0 c1 ext,
    descend dir n up = (node h k b c0 c1, ext ++ up) /\
    plug_all ext (node h k b c0 c1) = n /\
    children (node h k b c0 c1) dir = nullptr /\
    Forall (fun f => slot f = dir) ext.
Proof.
  induction n as [|h k b c0 IH0 c1 IH1]; intros up Hn; [congruence|].
  destruct dir; simpl.
  - destruct c0 as [|h0 k0 b0 c00 c01].
    + exists h, k, b, nullptr, c1, []. splits; auto.
    + destruct (IH0 (mkParent I0 h k b c1 :: up))
        as (h' & k' & b' & c0' & c1' & ext & E & EP & Hc & Hs);
        [discriminate|].
      exists h', k', b', c0', c1', (ext ++ [mkParent I0 h k b c1]).
      rewrite <- app_assoc. splits; auto.
      * clear E. revert EP. generalize (node h' k' b' c0' c1').
        induction ext as [|f ext IHe]; simpl; intros x Hx.
        -- unfold plug; simpl; now rewrite Hx.
        -- inversion Hs; subst. apply IHe; auto.
      * apply Forall_app; split; auto.
  - destruct c1 as [|h1 k1 b1 c10 c11].
    + exists h, k, b, c0, nullptr, []. splits; auto.
    + destruct (IH1 (mkParent I1 h k b c0 :: up))
        as (h' & k' & b' & c0' & c1' & ext & E & EP & Hc & Hs);
        [discriminate|].
      exists h', k', b', c0', c1', (ext ++ [mkParent I1 h k b c0]).
      rewrite <- app_assoc. splits; auto.
      * clear E. revert EP. generalize (node h' k' b' c0' c1').
        induction ext as [|f ext IHe]; simpl; intros x Hx.
        -- unfold plug; simpl; now rewrite Hx.
        -- inversion Hs; subst. apply IHe; auto.
      * apply Forall_app; split; auto.
Qed.

Lemma keys_before_all0 (ext : list Parent) :
  Forall (fun f => slot f = I0) ext -> keys_before ext = [].
Proof.
  induction 1 as [|f ext Hf _ IH]; simpl; auto.
  now rewrite IH, Hf.
Qed.

Lemma keys_after_all1 (ext : list Parent) :
  Forall (fun f => slot f = I1) ext -> keys_after ext = [].
Proof.
  induction 1 as [|f ext Hf _ IH]; simpl; auto.
  now rewrite IH, Hf.
Qed.

(** *** Merging *)

Lemma ExtractMax_ok (t : Node) :
  avl t -> t <> nullptr ->
  exists h k b r,
    ExtractMax t = Ok (node h k b nullptr nullptr, r) /\ avl r /\
    VisitInOrder t = VisitInOrder r ++ [k] /\
    (augmented t -> augmented r) /\
    exists c0, GetMax t = node h k b c0 nullptr.
Proof.
  intros At Hn.
  destruct (@descend_spec I1 t [] Hn)
    as (h & k & b & c0 & c1 & ext & E & EP & Hc & Hs).
  cbn [children] in Hc. subst c1. rewrite app_nil_r in E.
  unfold ExtractMax, GetMax, GetExtreme.
  destruct t as [|ht kt bt t0 t1]; [congruence|].
  cbn [is_null negb Assert bind]. rewrite E. cbn [children set_children fst].
  assert (Gt : augmented (node ht kt bt t0 t1) ->
               augmented (node h k b c0 nullptr) /\ chain_augmented ext)
    by (rewrite <- EP; apply augmented_plug_all).
  rewrite <- EP in At. apply avl_plug_all in At.
  destruct At as (Ap & Cp & _). simpl in Ap.
  destruct Ap as (A0 & _ & Hh & L0 & L1).
  destruct (@Rebalance_ok ext c0 h) as (r & Er & Ar & Vr & _ & _ & Gr); auto;
    try (simpl in *; lia).
  rewrite Er. cbn [bind].
  exists h, k, b, r. splits; eauto.
  - rewrite <- EP, Vr, !VisitInOrder_plug_all, (keys_after_all1 Hs).
    list_eq.
  - intros G. apply Gt in G. simpl in G. apply Gr; tauto.
Qed.

Lemma GetMin_In (t : Node) :
  t <> nullptr ->
  exists h k b c0 c1, GetMin t = node h k b c0 c1 /\ In k (VisitInOrder t).
Proof.
  intros Hn.
  destruct (@descend_spec I0 t [] Hn)
    as (h & k & b & c0 & c1 & ext & E & EP & Hc & Hs).
  rewrite app_nil_r in E. unfold GetMin, GetExtreme.
  destruct t as [|ht kt bt t0 t1]; [congruence|].
  rewrite E. exists h, k, b, c0, c1. split; auto.
  rewrite <- EP, VisitInOrder_plug_all. simpl.
  apply in_or_app; right. apply in_or_app; left.
  apply in_or_app; right. simpl; auto.
Qed.

Lemma MergeWithRoot_loop_ok (dir : ChildIndex) (hr : nat) (kr : T) (br : B)
  (treeToHang : Node) :
  avl treeToHang ->
  forall (p : Node) (up : list Parent),
  avl p -> height_or_0 treeToHang + 2 <= height_or_0 p ->
  chain_ok (height_or_0 p) up ->
  exists r,
    MergeWithRoot_loop (node hr kr br nullptr nullptr) treeToHang dir
                       (height_or_0 treeToHang) p up = Ok r /\
    avl r /\
    VisitInOrder r =
    keys_before up ++
    match dir with
    | I0 => VisitInOrder treeToHang ++ kr :: VisitInOrder p
    | I1 => VisitInOrder p ++ kr :: VisitInOrder treeToHang
    end ++ keys_after up /\
    (augmented treeToHang -> augmented p -> chain_augmented up ->
     augmented r).
Proof.
  intros Ah. set (hMin := height_or_0 treeToHang).
  induction p as [|h k b c0 IH0 c1 IH1]; intros up Ap Hp Cup;
    [simpl in Hp; lia|].
  simpl in Ap. destruct Ap as (A0 & A1 & Hh & L0 & L1).
  cbn [height_or_0] in Hp, Cup.
  destruct dir; cbn [MergeWithRoot_loop is0].
  - destruct (Nat.eqb_spec (hMin + 1) (height_or_0 c0)) as [E1|E1];
      [|destruct (Nat.eqb_spec (height_or_0 c0) hMin) as [E2|E2]];
      cbn [orb].
    1,2: cbn [SetRootAndTwoSubtrees set_children UpdateNodeState bind];
      match goal with |- context [Rebalance ?u ?n] =>
        destruct (@Rebalance_ok u n (height_or_0 c0))
          as (r & Er & Ar & Vr & _ & _ & Gr) end;
      try (simpl; splits; auto; fold hMin; lia);
      try (simpl; fold hMin; lia);
      [ simpl; splits; auto; try lia;
        replace (S (Nat.max (height_or_0 c0) (height_or_0 c1))) with h
          by lia; auto
      | rewrite Er; exists r; splits; auto;
        [ rewrite Vr, VisitInOrder_plug_all; list_eq
        | intros Gh Gp Gup; simpl in Gp; apply Gr;
          [ simpl; tauto | constructor; simpl; tauto ] ] ].
    destruct (IH0 (mkParent I0 h k b c1 :: up)) as (r & Er & Ar & Vr & Gr);
      auto; try lia.
    { simpl. splits; auto; try lia.
      replace (S (Nat.max (height_or_0 c0) (height_or_0 c1))) with h
        by lia; auto. }
    exists r; splits; auto; [rewrite Vr; list_eq|].
    intros Gh Gp Gup. simpl in Gp. apply Gr; try tauto.
    constructor; simpl; tauto.
  - destruct (Nat.eqb_spec (hMin + 1) (height_or_0 c1)) as [E1|E1];
      [|destruct (Nat.eqb_spec (height_or_0 c1) hMin) as [E2|E2]];
      cbn [orb].
    1,2: cbn [SetRootAndTwoSubtrees set_children UpdateNodeState bind];
      match goal with |- context [Rebalance ?u ?n] =>
        destruct (@Rebalance_ok u n (height_or_0 c1))
          as (r & Er & Ar & Vr & _ & _ & Gr) end;
      try (simpl; splits; auto; fold hMin; lia);
      try (simpl; fold hMin; lia);
      [ simpl; splits; auto; try lia;
        replace (S (Nat.max (height_or_0 c1) (height_or_0 c0))) with h
          by lia; auto
      | rewrite Er; exists r; splits; auto;
        [ rewrite Vr, VisitInOrder_plug_all; list_eq
        | intros Gh Gp Gup; simpl in Gp; apply Gr;
          [ simpl; tauto | constructor; simpl; tauto ] ] ].
    destruct (IH1 (mkParent I1 h k b c0 :: up)) as (r & Er & Ar & Vr & Gr);
      auto; try lia.
    { simpl. splits; auto; try lia.
      replace (S (Nat.max (height_or_0 c1) (height_or_0 c0))) with h
        by lia; auto. }
    exists r; splits; auto; [rewrite Vr; list_eq|].
    intros Gh Gp Gup. simpl in Gp. apply Gr; try tauto.
    constructor; simpl; tauto.
Qed.

Lemma MergeWithRoot_ok (m_root rightTree : Node) (hr : nat) (kr : T)
  (br : B) :
  avl m_root -> avl rightTree ->
  exists r,
    MergeWithRoot m_root (node hr kr br nullptr nullptr) rightTree
    = Ok (r, nullptr) /\
    avl r /\ r <> nullptr /\
    VisitInOrder r = VisitInOrder m_root ++ kr :: VisitInOrder rightTree /\
    (augmented m_root -> augmented rightTree -> augmented r).
Proof.
  intros A1 A2. unfold MergeWithRoot.
  cbn [is_null negb children andb Assert bind].
  destruct (Nat.leb_spec (height_or_0 rightTree) (height_or_0 m_root + 1))
    as [H1|H1];
    [destruct (Nat.leb_spec (height_or_0 m_root) (height_or_0 rightTree + 1))
      as [H2|H2]|]; cbn [andb].
  - cbn [SetRootAndTwoSubtrees set_children UpdateNodeState bind].
    eexists; split; [reflexivity|]. simpl. splits; auto; try lia.
    discriminate.
  - replace (height_or_0 rightTree <? height_or_0 m_root) with true
      by (symmetry; apply Nat.ltb_lt; lia).
    destruct (@MergeWithRoot_loop_ok I1 hr kr br rightTree A2 m_root [])
      as (r & Er & Ar & Vr & Gr); simpl; auto; try lia.
    rewrite Er. cbn [bind]. exists r. splits; auto.
    + intros ->. destruct m_root; simpl in *; [lia|].
      destruct (VisitInOrder m_root1); discriminate.
    + rewrite Vr. list_eq.
    + intros G1 G2. apply Gr; auto. constructor.
  - replace (height_or_0 rightTree <? height_or_0 m_root) with false
      by (symmetry; apply Nat.ltb_ge; lia).
    destruct (@MergeWithRoot_loop_ok I0 hr kr br m_root A1 rightTree [])
      as (r & Er & Ar & Vr & Gr); simpl; auto; try lia.
    rewrite Er. cbn [bind].
    replace (height_or_0 m_root <? height_or_0 rightTree) with true
      by (symmetry; apply Nat.ltb_lt; lia).
    exists r. splits; auto.
    + intros ->. destruct (VisitInOrder m_root); discriminate.
    + rewrite Vr. list_eq.
    + intros G1 G2. apply Gr; auto. constructor.
Qed.

(** *** Splitting *)

Lemma locate_spec (path : Handle) :
  forall (n : Node) (up : list Parent) (p : Node) (up' : list Parent),
  locate path n up = Some (p, up') ->
  plug_all up' p = plug_all up n /\
  exists h k b c0 c1, p = node h k b c0 c1.
Proof.
  induction path as [|i path IH]; intros n up p up' E;
    destruct n as [|h k b c0 c1]; simpl in E; try discriminate.
  - inversion E; subst. split; eauto 6.
  - destruct i; apply IH in E; destruct E as (E & Hp); split; auto.
Qed.

Lemma Split_loop_ok (up : list Parent) :
  forall (h0 : nat) (lt rt : Node),
  chain_ok h0 up -> avl lt -> avl rt ->
  exists lt' rt',
    Split_loop up (is_child0 up) lt rt = Ok (lt', rt') /\
    avl lt' /\ avl rt' /\
    VisitInOrder lt' = keys_before up ++ VisitInOrder lt /\
    VisitInOrder rt' = VisitInOrder rt ++ keys_after up /\
    (chain_augmented up -> augmented lt -> augmented rt ->
     augmented lt' /\ augmented rt').
Proof.
  induction up as [|f up IH]; intros h0 lt rt Cup Al Ar.
  - exists lt, rt. simpl. splits; auto. now rewrite app_nil_r.
  - destruct Cup as (Ao & _ & _ & Cup).
    destruct f as [[] h k b o]; cbn [Split_loop is_child0 slot is0].
    + unfold DoOneSplittingStep, plug.
      cbn [slot p_height p_key p_base p_other children other is_null
           Assert bind set_children UpdateNodeState].
      destruct (@MergeWithRoot_ok rt o
                  (1 + Nat.max (height_or_0 (@nullptr T B))
                               (height_or_0 (@nullptr T B))) k
                  (NodeBase_UpdateNodeState k (as_base nullptr)
                                            (as_base nullptr)) Ar Ao)
        as (r & Er & Arr & _ & Vr & Gr).
      rewrite Er. cbn [bind].
      destruct (IH _ lt r Cup Al Arr) as (lt' & rt' & E & Al' & Ar' & Vl & Vr' & G').
      fold (is_child0 up). rewrite E.
      exists lt', rt'. splits; auto.
      * rewrite Vl. list_eq.
      * rewrite Vr', Vr. list_eq.
      * intros Gup Gl Grt. inversion Gup; subst. simpl in *.
        apply G'; auto.
    + unfold DoOneSplittingStep, plug.
      cbn [slot p_height p_key p_base p_other children other is_null
           Assert bind set_children UpdateNodeState].
      destruct (@MergeWithRoot_ok o lt
                  (1 + Nat.max (height_or_0 (@nullptr T B))
                               (height_or_0 (@nullptr T B))) k
                  (NodeBase_UpdateNodeState k (as_base nullptr)
                                            (as_base nullptr)) Ao Al)
        as (r & Er & Arr & _ & Vr & Gr).
      rewrite Er. cbn [bind].
      destruct (IH _ r rt Cup Arr Ar) as (lt' & rt' & E & Al' & Ar' & Vl & Vr' & G').
      fold (is_child0 up). rewrite E.
      exists lt', rt'. splits; auto.
      * rewrite Vl, Vr. list_eq.
      * intros Gup Gl Grt. inversion Gup; subst. simpl in *.
        apply G'; auto.
Qed.

(** *** Sorted lists *)

Section Sorted.

Variable R : T -> T -> Prop.

Lemma sorted_app (l1 l2 : list T) :
  StronglySorted R (l1 ++ l2) <->
  StronglySorted R l1 /\ StronglySorted R l2 /\
  (forall a b, In a l1 -> In b l2 -> R a b).
Proof.
  induction l1 as [|x l1 IH]; simpl.
  - split.
    + intro H; repeat split; auto; [constructor | contradiction].
    + tauto.
  - split.
    + intro H. inversion H as [|? ? S F]; subst.
      apply IH in S. destruct S as (S1 & S2 & S12).
      rewrite Forall_app in F. destruct F as (F1 & F2).
      repeat split; auto.
      * constructor; auto.
      * intros a b [->|Ha] Hb; auto.
        rewrite Forall_forall in F2; auto.
    + intros (S1 & S2 & S12).
      inversion S1 as [|? ? S F]; subst.
      constructor.
      * apply IH; repeat split; auto.
      * apply Forall_app; split; auto.
        apply Forall_forall; intros b Hb; apply S12; auto.
Qed.

Lemma sorted_cons (x : T) (l : list T) :
  StronglySorted R (x :: l) <->
  StronglySorted R l /\ (forall b, In b l -> R x b).
Proof.
  split.
  - intro H; inversion H; subst; split; auto.
    now apply Forall_forall.
  - intros (S & F); constructor; auto. now apply Forall_forall.
Qed.

End Sorted.

Section Ordered.

Hypothesis STO : StrictTotalOrder m_comp.

Local Abbreviation ltk := (less m_comp).
Local Abbreviation ord := (ordered m_comp).
Local Abbreviation btw := (between m_comp).

(** *** The order of the keys *)

Lemma less_trans (a b c : T) : ltk a b -> ltk b c -> ltk a c.
Proof. apply (comp_trans STO). Qed.

Lemma less_irrefl (a : T) : ~ ltk a a.
Proof. unfold less. rewrite (comp_irrefl STO). discriminate. Qed.

Lemma ordered_node (h : nat) (k : T) (b : B) (c0 c1 : Node) :
  ord (node h k b c0 c1) <->
  ord c0 /\ ord c1 /\
  (forall x, In x (VisitInOrder c0) -> ltk x k) /\
  (forall x, In x (VisitInOrder c1) -> ltk k x).
Proof.
  unfold ordered; simpl.
  rewrite sorted_app, sorted_cons. split.
  - intros (S0 & (S1 & F1) & F01). repeat split; auto.
    intros x Hx. apply F01; simpl; auto.
  - intros (S0 & S1 & F0 & F1). repeat split; auto.
    intros a c Ha [<-|Hc]; auto.
    apply less_trans with k; auto.
Qed.

(** *** Find, Add and Delete *)

Lemma FindImpl_spec (v : T) (n : Node) :
  forall up : list Parent,
  n <> nullptr -> ord n -> btw up v ->
  exists h k b c0 c1 up',
    FindImpl m_comp v n up = (node h k b c0 c1, up') /\
    plug_all up' (node h k b c0 c1) = plug_all up n /\
    btw up' v /\
    ((m_comp v k = true /\ c0 = nullptr) \/
     (m_comp v k = false /\ m_comp k v = true /\ c1 = nullptr) \/
     (m_comp v k = false /\ m_comp k v = false)).
Proof.
  induction n as [|h k b c0 IH0 c1 IH1]; intros up Hn On Bt; [congruence|].
  apply ordered_node in On. destruct On as (O0 & O1 & F0 & F1).
  simpl. destruct (m_comp v k) eqn:Evk.
  - destruct c0 as [|h0 k0 b0 c00 c01].
    + exists h, k, b, nullptr, c1, up. splits; auto.
    + apply IH0; auto; [discriminate|].
      destruct Bt as (Bb & Ba). split; simpl.
      * now rewrite app_nil_r.
      * constructor; [exact Evk|]. apply Forall_app; split; auto.
        apply Forall_forall; intros x Hx.
        apply less_trans with k; auto.
  - destruct (m_comp k v) eqn:Ekv.
    + destruct c1 as [|h1 k1 b1 c10 c11].
      * exists h, k, b, c0, nullptr, up. splits; auto.
      * apply IH1; auto; [discriminate|].
        destruct Bt as (Bb & Ba). split; simpl; auto.
        apply Forall_app; split; auto.
        apply Forall_app; split; [|constructor; auto].
        apply Forall_forall; intros x Hx.
        apply less_trans with k; auto.
    + exists h, k, b, c0, c1, up. splits; auto.
Qed.

Lemma not_In_between (v : T) (l1 l2 : list T) :
  Forall (fun x => ltk x v) l1 -> Forall (fun x => ltk v x) l2 ->
  ~ In v (l1 ++ l2).
Proof.
  rewrite !Forall_forall. intros F1 F2 H.
  apply in_app_or in H. destruct H as [H|H].
  - exact (less_irrefl (F1 _ H)).
  - exact (less_irrefl (F2 _ H)).
Qed.

Lemma ordered_plug_all (up : list Parent) (c : Node) :
  ord (plug_all up c) -> ord c.
Proof.
  unfold ordered. rewrite VisitInOrder_plug_all, !sorted_app. tauto.
Qed.

Lemma Add_spec (t : Node) (v : T) :
  avl t -> ord t ->
  (In v (VisitInOrder t) /\ Add m_comp t v = Ok (false, t)) \/
  (~ In v (VisitInOrder t) /\
   exists t' l1 l2,
     Add m_comp t v = Ok (true, t') /\ avl t' /\
     VisitInOrder t = l1 ++ l2 /\ VisitInOrder t' = l1 ++ v :: l2 /\
     Forall (fun x => ltk x v) l1 /\ Forall (fun x => ltk v x) l2 /\
     (@ctor_agrees T B NB -> augmented t -> augmented t') /\
     (t = nullptr /\ t' = new_Node v \/
      exists where_ up dir,
        Find m_comp t v = (where_, up) /\
        children where_ dir = nullptr /\
        (dir = I0 /\ (exists k, GetKey where_ = Some k /\ ltk v k) \/
         dir = I1 /\ (exists k, GetKey where_ = Some k /\ ltk k v)) /\
        Rebalance up (UpdateNodeState (set_children where_ dir (new_Node v)))
        = Ok t')).
Proof.
  intros At Ot. destruct t as [|h0 k0 b0 t0 t1].
  { right. split; [simpl; tauto|].
    exists (new_Node v), [], []. simpl. splits; auto; try lia. }
  remember (node h0 k0 b0 t0 t1) as t eqn:Et.
  destruct (@FindImpl_spec v t []) as (h & k & b & c0 & c1 & up & EF & EP & Bt & Hc).
  { subst; discriminate. } { assumption. } { split; constructor. }
  simpl in EP.
  assert (Ap : avl (plug_all up (node h k b c0 c1))) by (rewrite EP; auto).
  assert (Op : ord (node h k b c0 c1)).
  { apply ordered_plug_all with up. rewrite EP; auto. }
  apply avl_plug_all in Ap. destruct Ap as (Ap & Cup & _).
  apply ordered_node in Op. destruct Op as (O0 & O1 & F0 & F1).
  assert (EA : Add m_comp t v =
               let '(where_, up) := Find m_comp t v in
               match where_ with
               | nullptr => Undefined
               | node _ k _ _ _ =>
                   if m_comp v k then
                     w <- AddChild where_ I0 v ;;
                     r <- Rebalance up (UpdateNodeState w) ;; Ok (true, r)
                   else if m_comp k v then
                     w <- AddChild where_ I1 v ;;
                     r <- Rebalance up (UpdateNodeState w) ;; Ok (true, r)
                   else Ok (false, t)
               end) by (subst t; reflexivity).
  rewrite EA. unfold Find. rewrite EF. clear EA.
  destruct Bt as (Bb & Ba).
  simpl in Ap. destruct Ap as (A0 & A1 & Hh & L0 & L1).
  destruct Hc as [(Evk & ->)|[(Evk & Ekv & ->)|(Evk & Ekv)]]; rewrite Evk.
  - right.
    destruct (@Rebalance_ok up
                (UpdateNodeState (node h k b (new_Node v) c1)) h)
      as (r & Er & Ar & Vr & _ & _ & Gr); auto.
    { simpl in *. splits; auto; lia. }
    { simpl in *; lia. } { simpl in *; lia. }
    assert (Vt : VisitInOrder t =
                 keys_before up ++ (k :: VisitInOrder c1) ++ keys_after up).
    { rewrite <- EP, VisitInOrder_plug_all. reflexivity. }
    assert (F2 : Forall (fun x => ltk v x)
                        ((k :: VisitInOrder c1) ++ keys_after up)).
    { apply Forall_app; split; auto. constructor; auto.
      apply Forall_forall; intros x Hx. apply less_trans with k; auto. }
    split.
    + rewrite Vt. apply not_In_between; auto.
    + exists r, (keys_before up), ((k :: VisitInOrder c1) ++ keys_after up).
      change (AddChild (node h k b nullptr c1) I0 v)
        with (Ok (node h k b (new_Node v) c1)).
      cbn [bind]. rewrite Er. cbn [bind].
      assert (Gt : augmented t -> augmented (node h k b nullptr c1) /\
                                  chain_augmented up)
        by (rewrite <- EP; apply augmented_plug_all).
      splits; auto.
      * rewrite Vr, VisitInOrder_plug_all. reflexivity.
      * intros Law G. apply Gt in G. destruct G as (G & Gup).
        apply Gr; auto. simpl in *. splits; auto; tauto.
      * right. exists (node h k b nullptr c1), up, I0.
        unfold Find. splits; auto. left; split; auto.
        exists k; split; auto.
  - right. rewrite Ekv.
    destruct (@Rebalance_ok up
                (UpdateNodeState (node h k b c0 (new_Node v))) h)
      as (r & Er & Ar & Vr & _ & _ & Gr); auto.
    { simpl in *. splits; auto; lia. }
    { simpl in *; lia. } { simpl in *; lia. }
    assert (Vt : VisitInOrder t =
                 (keys_before up ++ VisitInOrder c0 ++ [k]) ++ keys_after up).
    { rewrite <- EP, VisitInOrder_plug_all. list_eq. }
    assert (F2 : Forall (fun x => ltk x v)
                        (keys_before up ++ VisitInOrder c0 ++ [k])).
    { apply Forall_app; split; auto. apply Forall_app; split.
      - apply Forall_forall; intros x Hx. apply less_trans with k; auto.
      - constructor; auto. }
    split.
    + rewrite Vt. apply not_In_between; auto.
    + exists r, (keys_before up ++ VisitInOrder c0 ++ [k]), (keys_after up).
      change (AddChild (node h k b c0 nullptr) I1 v)
        with (Ok (node h k b c0 (new_Node v))).
      cbn [bind]. rewrite Er. cbn [bind].
      assert (Gt : augmented t -> augmented (node h k b c0 nullptr) /\
                                  chain_augmented up)
        by (rewrite <- EP; apply augmented_plug_all).
      splits; auto.
      * rewrite Vr, VisitInOrder_plug_all. list_eq.
      * intros Law G. apply Gt in G. destruct G as (G & Gup).
        apply Gr; auto. simpl in *. splits; auto; tauto.
      * right. exists (node h k b c0 nullptr), up, I1.
        unfold Find. splits; auto. right; split; auto.
        exists k; split; auto.
  - left. rewrite Ekv. split; auto.
    assert (v = k) by (apply (comp_total STO); auto). subst k.
    rewrite <- EP, VisitInOrder_plug_all. simpl.
    apply in_or_app; right. apply in_or_app; left.
    apply in_or_app; right; simpl; auto.
Qed.

Lemma Delete_spec (t : Node) (v : T) :
  avl t -> ord t ->
  (~ In v (VisitInOrder t) /\ Delete m_comp t v = Ok (false, t)) \/
  (exists t' l1 l2,
     Delete m_comp t v = Ok (true, t') /\ avl t' /\
     VisitInOrder t = l1 ++ v :: l2 /\ VisitInOrder t' = l1 ++ l2 /\
     (augmented t -> augmented t')).
Proof.
  intros At Ot. destruct t as [|h0 k0 b0 t0 t1].
  { left. split; [simpl; tauto|reflexivity]. }
  remember (node h0 k0 b0 t0 t1) as t eqn:Et.
  destruct (@FindImpl_spec v t [])
    as (h & k & b & c0 & c1 & up & EF & EP & Bt & Hc).
  { subst; discriminate. } { assumption. } { split; constructor. }
  simpl in EP.
  assert (Ap : avl (plug_all up (node h k b c0 c1))) by (rewrite EP; auto).
  assert (Op : ord (node h k b c0 c1)).
  { apply ordered_plug_all with up. rewrite EP; auto. }
  apply avl_plug_all in Ap. destruct Ap as (Ap & Cup & _).
  apply ordered_node in Op. destruct Op as (O0 & O1 & F0 & F1).
  unfold Delete, Find. rewrite EF.
  destruct Bt as (Bb & Ba).
  simpl in Ap. destruct Ap as (A0 & A1 & Hh & L0 & L1).
  assert (Vt : VisitInOrder t =
               keys_before up ++ (VisitInOrder c0 ++ k :: VisitInOrder c1)
               ++ keys_after up).
  { rewrite <- EP, VisitInOrder_plug_all. reflexivity. }
  assert (Gt : augmented t -> augmented (node h k b c0 c1) /\
                              chain_augmented up)
    by (rewrite <- EP; apply augmented_plug_all).
  destruct Hc as [(Evk & ->)|[(Evk & Ekv & ->)|(Evk & Ekv)]];
    rewrite Evk; [left|left|right].
  - simpl. split; auto. rewrite Vt. apply not_In_between; auto.
    apply Forall_app; split; auto. simpl. constructor; auto.
    apply Forall_forall; intros x Hx. apply less_trans with k; auto.
  - rewrite Ekv. simpl. split; auto.
    rewrite Vt, app_assoc. apply not_In_between; auto.
    apply Forall_app; split; auto. apply Forall_app; split.
    + apply Forall_forall; intros x Hx. apply less_trans with k; auto.
    + constructor; auto.
  - rewrite Ekv. cbn [orb].
    assert (v = k) by (apply (comp_total STO); auto). subst k.
    destruct c1 as [|h1 k1 b1 c10 c11].
    + (* no right child *)
      unfold DeleteNoRightChild. cbn [children].
      destruct (@Rebalance_ok up c0 h) as (r & Er & Ar & Vr & _ & _ & Gr);
        auto; try (simpl in *; lia).
      rewrite Er. cbn [bind].
      exists r, (keys_before up ++ VisitInOrder c0), (keys_after up).
      splits; auto.
      * rewrite Vt. list_eq.
      * rewrite Vr, VisitInOrder_plug_all. list_eq.
      * intros G. apply Gt in G. simpl in G. apply Gr; tauto.
    + destruct (@descend_spec I0 (node h1 k1 b1 c10 c11) [])
        as (hn & kn & bn & n0 & n1 & nup & En & EPn & Hn0 & Hs);
        [discriminate|].
      rewrite En, app_nil_r. cbn [children] in Hn0. subst n0.
      destruct nup as [|g nup'].
      * (* the successor is the right child *)
        simpl in EPn. inversion EPn; subst hn kn bn c10 n1. clear EPn.
        unfold DeleteNextIsImmediateChild. cbn [children set_children].
        simpl in A1. destruct A1 as (_ & A11 & Hh1 & L10 & L11).
        destruct (@Rebalance_node_ok h1 k1 b1 c0 c11)
          as (r1 & Er1 & Ar1 & Vr1 & G1 & G2 & G3 & Gr1); auto;
          try (simpl in *; lia).
        rewrite Er1. cbn [bind].
        destruct (@Rebalance_ok up r1 h) as (r & Er & Ar & Vr & _ & _ & Gr);
          auto; try (simpl in *; lia).
        rewrite Er. cbn [bind].
        exists r, (keys_before up ++ VisitInOrder c0),
               (k1 :: VisitInOrder c11 ++ keys_after up).
        splits; auto.
        -- rewrite Vt. list_eq.
        -- rewrite Vr, VisitInOrder_plug_all, Vr1. list_eq.
        -- intros G. apply Gt in G. simpl in G. apply Gr; tauto.
      * (* the successor lies deeper *)
        unfold DeleteNextNotImmediateChild. cbn [is_null Assert bind children].
        remember (g :: nup') as nup eqn:Enup.
        assert (An : avl (plug_all nup (node hn kn bn nullptr n1)))
          by (rewrite EPn; auto).
        apply avl_plug_all in An. destruct An as (An & Cn & Hcn).
        rewrite EPn in Hcn.
        simpl in An. destruct An as (_ & An1 & Hhn & _ & Ln).
        destruct (@Rebalance_ok (nup ++ mkParent I1 hn kn bn c0 :: up) n1 hn)
          as (r & Er & Ar & Vr & _ & _ & Gr); auto; try (simpl in *; lia).
        { apply chain_ok_app; split; auto. simpl in Hcn. rewrite Hcn. simpl.
          splits; auto; try (simpl in *; lia).
          replace (S (Nat.max h1 (height_or_0 c0))) with h; auto.
          simpl in *; lia. }
        rewrite Er. cbn [bind].
        exists r, (keys_before up ++ VisitInOrder c0),
               (kn :: VisitInOrder n1 ++ keys_after nup ++ keys_after up).
        splits; auto.
        -- rewrite Vt, <- EPn, VisitInOrder_plug_all.
           rewrite (keys_before_all0 Hs). list_eq.
        -- rewrite Vr, VisitInOrder_plug_all. simpl.
           rewrite keys_before_app, keys_after_app, (keys_before_all0 Hs).
           list_eq.
        -- intros G. apply Gt in G.
           destruct G as ((G0 & G1 & _) & Gup).
           rewrite <- EPn in G1. apply augmented_plug_all in G1.
           simpl in G1. apply Gr; try tauto.
           apply chain_augmented_app; split; try tauto.
           constructor; auto.
Qed.

(** *** MergeWith and Split on ordered trees *)

(** [op] stands for [operator<]: the assertion of [MergeWith] holds when
    [op] holds wherever the comparer does. *)
Lemma MergeWith_ok (op : T -> T -> bool) (t1 t2 : Node) :
  (forall a b, ltk a b -> op a b = true) ->
  avl t1 -> avl t2 ->
  (forall a b, In a (VisitInOrder t1) -> In b (VisitInOrder t2) -> ltk a b) ->
  exists r,
    MergeWith op t1 t2 = Ok (r, nullptr) /\ avl r /\
    VisitInOrder r = VisitInOrder t1 ++ VisitInOrder t2 /\
    (augmented t1 -> augmented t2 -> augmented r).
Proof.
  intros Hop A1 A2 H12. unfold MergeWith.
  destruct t1 as [|h1 k1 b1 c0 c1].
  { simpl. exists t2. splits; auto. }
  remember (node h1 k1 b1 c0 c1) as t1 eqn:Et1.
  assert (N1 : t1 <> nullptr) by (subst; discriminate).
  destruct (ExtractMax_ok A1 N1)
    as (h & k & b & rest & Ex & Ar & Vt & Gx & cm & Emax).
  assert (Ha : is_null t1 || is_null t2
               || key_less op (GetMax t1) (GetMin t2) = true).
  { destruct t2 as [|h2 k2 b2 c20 c21].
    - subst t1; reflexivity.
    - destruct (@GetMin_In (node h2 k2 b2 c20 c21))
        as (hm & km & bm & m0 & m1 & Emin & Hin); [discriminate|].
      rewrite Emax, Emin. subst t1. cbn [is_null orb key_less].
      apply Hop. apply H12; auto. rewrite Vt. apply in_or_app; right; simpl; auto. }
  rewrite Ha. cbn [Assert bind].
  rewrite Ex. cbn [bind].
  destruct (@MergeWithRoot_ok rest t2 h k b Ar A2)
    as (r & Er & Arr & _ & Vr & Gr).
  exists r. splits; auto. rewrite Vr, Vt. list_eq.
Qed.

Lemma Split_body_ok (op : T -> T -> bool) (t : Node) (path : Handle)
  (goesLeft : bool) (h : nat) (k : T) (b : B) (c0 c1 : Node)
  (up : list Parent) :
  (forall a b, ltk a b -> op a b = true) ->
  avl t -> ord t ->
  locate path t [] = Some (node h k b c0 c1, up) ->
  exists lt rt,
    Split_body op t path goesLeft = Ok (lt, rt) /\
    avl lt /\ avl rt /\
    VisitInOrder lt =
    keys_before up ++ VisitInOrder c0 ++ (if goesLeft then [k] else []) /\
    VisitInOrder rt =
    (if goesLeft then [] else [k]) ++ VisitInOrder c1 ++ keys_after up /\
    (augmented t -> augmented lt /\ augmented rt) /\
    VisitInOrder lt ++ VisitInOrder rt = VisitInOrder t.
Proof.
  intros Hop At Ot EL. unfold Split_body. rewrite EL.
  apply locate_spec in EL. destruct EL as (EP & _). simpl in EP.
  assert (Gt : augmented t -> augmented (node h k b c0 c1) /\
                              chain_augmented up)
    by (rewrite <- EP; apply augmented_plug_all).
  assert (Ap : avl (plug_all up (node h k b c0 c1))) by (rewrite EP; auto).
  assert (Op : ord (node h k b c0 c1)).
  { apply ordered_plug_all with up. rewrite EP; auto. }
  apply avl_plug_all in Ap. destruct Ap as (Ap & Cup & _).
  apply ordered_node in Op. destruct Op as (O0 & O1 & F0 & F1).
  simpl in Ap. destruct Ap as (A0 & A1 & Hh & L0 & L1).
  unfold PrepareInitialSplittingState.
  cbn [children set_children UpdateNodeState is_null negb Assert bind].
  set (mid := node (1 + Nat.max (height_or_0 (@nullptr T B))
                                (height_or_0 (@nullptr T B))) k
                   (NodeBase_UpdateNodeState k (as_base nullptr)
                                             (as_base nullptr))
                   nullptr nullptr).
  assert (Am : avl mid) by (simpl; splits; auto; lia).
  assert (Gm : augmented mid) by (simpl; auto).
  destruct goesLeft.
  - destruct (@MergeWith_ok op c0 mid Hop A0 Am) as (l2 & El & Al & Vl & Gl).
    { simpl. intros a c Ha [<-|[]]. auto. }
    rewrite El. cbn [bind].
    destruct (@Split_loop_ok up _ l2 c1 Cup Al A1)
      as (lt' & rt' & E & Al' & Ar' & Vl' & Vr' & G').
    fold (is_child0 up). rewrite E. exists lt', rt'.
    splits; auto; rewrite ?Vl', ?Vr', ?Vl; list_eq.
    + intros G. apply Gt in G. simpl in G. apply G'; tauto.
    + rewrite <- EP, VisitInOrder_plug_all. list_eq.
  - destruct (@MergeWith_ok op mid c1 Hop Am A1) as (r2 & Er & Ar & Vr & Gr).
    { simpl. intros a c [<-|[]] Hc. auto. }
    rewrite Er. cbn [bind].
    destruct (@Split_loop_ok up _ c0 r2 Cup A0 Ar)
      as (lt' & rt' & E & Al' & Ar' & Vl' & Vr' & G').
    fold (is_child0 up). rewrite E. exists lt', rt'.
    splits; auto; rewrite ?Vl', ?Vr', ?Vr; list_eq.
    + intros G. apply Gt in G. simpl in G. apply G'; tauto.
    + rewrite <- EP, VisitInOrder_plug_all. list_eq.
Qed.

Lemma sorted_insert (v : T) (l1 l2 : list T) :
  StronglySorted ltk (l1 ++ l2) ->
  Forall (fun x => ltk x v) l1 -> Forall (fun x => ltk v x) l2 ->
  StronglySorted ltk (l1 ++ v :: l2).
Proof.
  rewrite !sorted_app, sorted_cons, !Forall_forall.
  intros (S1 & S2 & S12) F1 F2. splits; auto.
  intros a c Ha [<-|Hc]; auto.
Qed.

Lemma sorted_remove (v : T) (l1 l2 : list T) :
  StronglySorted ltk (l1 ++ v :: l2) -> StronglySorted ltk (l1 ++ l2).
Proof.
  rewrite !sorted_app, sorted_cons.
  intros (S1 & (S2 & _) & S12). splits; auto.
  intros a c Ha Hc. apply S12; simpl; auto.
Qed.

Lemma sorted_once (v : T) (l1 l2 : list T) :
  StronglySorted ltk (l1 ++ v :: l2) -> ~ In v (l1 ++ l2).
Proof.
  rewrite sorted_app, sorted_cons.
  intros (S1 & (S2 & F2) & S12) H. apply in_app_or in H.
  destruct H as [H|H].
  - apply (@less_irrefl v). apply S12; simpl; auto.
  - apply (@less_irrefl v). auto.
Qed.

(** [operator<] decides whether [MergeWith] and [Split] return, not what
    they return. *)
Lemma MergeWith_same_result (op op' : T -> T -> bool) (t1 t2 : Node)
  (x y : Node * Node) :
  MergeWith op t1 t2 = Ok x -> MergeWith op' t1 t2 = Ok y -> x = y.
Proof.
  unfold MergeWith.
  destruct (is_null t1 || is_null t2 || key_less op (GetMax t1) (GetMin t2));
    [|discriminate].
  destruct (is_null t1 || is_null t2 || key_less op' (GetMax t1) (GetMin t2));
    [|discriminate].
  cbn [Assert bind]. congruence.
Qed.

Lemma Split_same_result (op op' : T -> T -> bool) (t : Node)
  (p : option Handle) (g : bool) (l l' r r' : Node) :
  Split op t p g = (l, Ok r) -> Split op' t p g = (l', Ok r') ->
  l = l' /\ r = r'.
Proof.
  unfold Split. destruct t as [|ht kt bt t0 t1]; [intros; split; congruence|].
  destruct p as [path|]; [|discriminate].
  unfold Split_body.
  destruct (locate path (node ht kt bt t0 t1) []) as [[pn up]|];
    [|discriminate].
  unfold PrepareInitialSplittingState.
  destruct pn as [|h k b c0 c1]; [discriminate|].
  cbn [children set_children UpdateNodeState is_null negb Assert bind].
  destruct g.
  - match goal with
    | |- context [MergeWith op ?a ?m] =>
        destruct (MergeWith op a m) as [x| | |] eqn:E1;
        destruct (MergeWith op' a m) as [y| | |] eqn:E2;
        cbn [bind]; try discriminate
    end.
    rewrite (MergeWith_same_result _ _ _ _ E1 E2).
    destruct y as [y1 y2]. cbn [bind].
    match goal with
    | |- context [Split_loop ?a ?c ?d ?e] =>
        destruct (Split_loop a c d e) as [[lt rt]| | |]
    end; intros H1 H2; inversion H1; inversion H2; subst; auto.
  - match goal with
    | |- context [MergeWith op ?a ?m] =>
        destruct (MergeWith op a m) as [x| | |] eqn:E1;
        destruct (MergeWith op' a m) as [y| | |] eqn:E2;
        cbn [bind]; try discriminate
    end.
    rewrite (MergeWith_same_result _ _ _ _ E1 E2).
    destruct y as [y1 y2]. cbn [bind].
    match goal with
    | |- context [Split_loop ?a ?c ?d ?e] =>
        destruct (Split_loop a c d e) as [[lt rt]| | |]
    end; intros H1 H2; inversion H1; inversion H2; subst; auto.
Qed.

(** Every operation keeps the tree an ordered AVL tree (with its
    augmentation, when a fresh node is in the state [UpdateNodeState]
    gives). *)
Lemma reachable_inv (operator_lt : T -> T -> bool) (t : Node) :
  reachable m_comp operator_lt t ->
  avl t /\ ord t /\ (@ctor_agrees T B NB -> augmented t).
Proof.
  induction 1 as
    [ | t v res t' _ (At & Ot & Gt) E
      | t v res t' _ (At & Ot & Gt) E
      | t1 t2 t1' t2' _ (A1 & O1 & G1) _ (A2 & O2 & G2) H12 E
      | t1 t2 t1' t2' _ (A1 & O1 & G1) _ (A2 & O2 & G2) H12 E
      | t p g t' r _ (At & Ot & Gt) Hp E
      | t p g t' r _ (At & Ot & Gt) Hp E ].
  - simpl. splits; auto; constructor.
  - destruct (Add_spec v At Ot)
      as [(_ & E')|(_ & t'' & l1 & l2 & E' & A' & V & V' & F1 & F2 & G' & _)];
      rewrite E' in E; inversion E; subst; auto.
    splits; auto. unfold ordered in *. rewrite V' . rewrite V in Ot.
    now apply sorted_insert.
  - destruct (Delete_spec v At Ot)
      as [(_ & E')|(t'' & l1 & l2 & E' & A' & V & V' & G')];
      rewrite E' in E; inversion E; subst; auto.
    splits; auto. unfold ordered in *. rewrite V'. rewrite V in Ot.
    now apply sorted_remove with v.
  - destruct (@MergeWith_ok m_comp t1 t2 (fun a b H => H) A1 A2 H12)
      as (r & E' & Ar & Vr & Gr).
    pose proof (MergeWith_same_result _ _ _ _ E E') as Eq.
    inversion Eq; subst. splits; auto.
    unfold ordered in *. rewrite Vr. apply sorted_app; auto.
  - destruct (@MergeWith_ok m_comp t1 t2 (fun a b H => H) A1 A2 H12)
      as (r & E' & Ar & Vr & Gr).
    pose proof (MergeWith_same_result _ _ _ _ E E') as Eq.
    inversion Eq; subst. simpl; splits; auto; try constructor.
  - destruct Hp as [->|(path & -> & Hl)].
    + simpl in E. inversion E; subst. simpl; splits; auto; try constructor.
    + destruct (locate path t []) as [[pn up]|] eqn:EL; [|congruence].
      destruct (locate_spec _ _ _ EL) as (EP & h & k & b & c0 & c1 & ->).
      destruct (@Split_body_ok m_comp t path g h k b c0 c1 up
                  (fun a b H => H) At Ot EL)
        as (lt' & rt' & E' & Al & Ar & Vl & Vr & G' & Vt).
      assert (E2 : Split m_comp t (Some path) g = (lt', Ok rt')).
      { unfold Split. rewrite E'.
        destruct t; [simpl in EL; discriminate|reflexivity]. }
      destruct (Split_same_result _ _ _ _ _ E E2) as (-> & ->).
      splits; auto; [|tauto].
      unfold ordered in *. rewrite <- Vt in Ot.
      apply sorted_app in Ot. tauto.
  - destruct Hp as [->|(path & -> & Hl)].
    + simpl in E. inversion E; subst. simpl; splits; auto; try constructor.
    + destruct (locate path t []) as [[pn up]|] eqn:EL; [|congruence].
      destruct (locate_spec _ _ _ EL) as (EP & h & k & b & c0 & c1 & ->).
      destruct (@Split_body_ok m_comp t path g h k b c0 c1 up
                  (fun a b H => H) At Ot EL)
        as (lt' & rt' & E' & Al & Ar & Vl & Vr & G' & Vt).
      assert (E2 : Split m_comp t (Some path) g = (lt', Ok rt')).
      { unfold Split. rewrite E'.
        destruct t; [simpl in EL; discriminate|reflexivity]. }
      destruct (Split_same_result _ _ _ _ _ E E2) as (-> & ->).
      splits; auto; [|tauto].
      unfold ordered in *. rewrite <- Vt in Ot.
      apply sorted_app in Ot. tauto.
Qed.

Lemma sorted_partition (l1 l2 : list T) (k x : T) :
  StronglySorted ltk (l1 ++ k :: l2) ->
  (In x l1 <-> In x (l1 ++ k :: l2) /\ ltk x k) /\
  (In x l2 <-> In x (l1 ++ k :: l2) /\ ltk k x).
Proof.
  rewrite sorted_app, sorted_cons. intros (S1 & (S2 & F2) & S12).
  assert (Hk : In k (k :: l2)) by (simpl; auto).
  split; split.
  - intros H. split; [apply in_or_app; auto|]. apply S12; auto.
  - intros (H & L). apply in_app_or in H. destruct H as [H|[<-|H]]; auto.
    + destruct (less_irrefl L).
    + destruct (@less_irrefl k). apply less_trans with x; auto.
  - intros H. split; [apply in_or_app; simpl; auto|]. auto.
  - intros (H & L). apply in_app_or in H. destruct H as [H|[<-|H]]; auto.
    + destruct (@less_irrefl k). apply less_trans with x; auto.
    + destruct (less_irrefl L).
Qed.

Lemma avl_every_node (t : Node) :
  avl t ->
  height_or_0 t = tree_height t /\
  every_node (fun n => balanced n /\ height_correct n /\
                       height_or_0 n = tree_height n) t.
Proof.
  induction t as [|h k b c0 IH0 c1 IH1]; simpl; auto.
  intros (A0 & A1 & Hh & L0 & L1).
  destruct (IH0 A0) as (E0 & N0). destruct (IH1 A1) as (E1 & N1).
  unfold balanced, height_correct; simpl.
  rewrite <- E0, <- E1. splits; auto.
Qed.

(** ** The claims *)

(** C1.  Every tree obtained from the empty tree by [Add], [Delete],
    [MergeWith] and [Split] calls that meet their preconditions is an AVL
    tree: at every node the two subtree heights differ by at most one, the
    stored height is one more than the larger stored height of the children
    (0 for a null child) and is the height of the subtree; and the in-order
    traversal is strictly ascending in the comparer's order. *)
Theorem invariant_preservation (operator_lt : T -> T -> bool) (t : Node) :
  reachable m_comp operator_lt t ->
  every_node (fun n => balanced n /\ height_correct n /\
                       height_or_0 n = tree_height n) t /\
  StronglySorted (less m_comp) (VisitInOrder t).
Proof.
  intros R. apply reachable_inv in R. destruct R as (A & O & _).
  split; [now apply avl_every_node | exact O].
Qed.

(** C3, where [operator<] holds wherever the comparer does (as with the
    default comparer).  For a non-empty ordered AVL tree and a handle to a
    live node with key [kp], [Split] succeeds; the tree keeps exactly the
    keys less than [kp], the returned tree holds exactly the keys greater
    than [kp], and [kp] itself is kept when [keyGoesLeft] is set and returned
    otherwise.  Nothing is lost or duplicated: the two traversals together
    are the original one. *)
Theorem Split_partitions (operator_lt : T -> T -> bool) (t : Node)
  (path : Handle) (keyGoesLeft : bool) (kp : T) :
  (forall a b, less m_comp a b -> operator_lt a b = true) ->
  avl t -> ordered m_comp t -> key_at t path = Some kp ->
  exists l r,
    Split operator_lt t (Some path) keyGoesLeft = (l, Ok r) /\
    (forall x, In x (VisitInOrder l) <->
               In x (VisitInOrder t) /\
               (less m_comp x kp \/ keyGoesLeft = true /\ x = kp)) /\
    (forall x, In x (VisitInOrder r) <->
               In x (VisitInOrder t) /\
               (less m_comp kp x \/ keyGoesLeft = false /\ x = kp)) /\
    VisitInOrder l ++ VisitInOrder r = VisitInOrder t.
Proof.
  intros Hop At Ot Hk. unfold key_at in Hk.
  destruct (locate path t []) as [[pn up]|] eqn:EL; [|discriminate].
  destruct (locate_spec _ _ _ EL) as (EP & h & k & b & c0 & c1 & ->).
  inversion Hk; subst k. simpl in EP.
  destruct (@Split_body_ok operator_lt t path keyGoesLeft h kp b c0 c1 up
              Hop At Ot EL)
    as (l & r & E & Al & Ar & Vl & Vr & _ & Vt).
  exists l, r. unfold Split. rewrite E.
  destruct t as [|ht kt bt t0 t1]; [simpl in EL; discriminate|].
  remember (node ht kt bt t0 t1) as t eqn:Et.
  assert (Vw : VisitInOrder t =
               (keys_before up ++ VisitInOrder c0) ++
               kp :: VisitInOrder c1 ++ keys_after up).
  { rewrite <- EP, VisitInOrder_plug_all. list_eq. }
  unfold ordered in Ot. rewrite Vw in Ot.
  splits; auto; intros x;
    destruct (@sorted_partition _ _ _ x Ot) as (P1 & P2);
    rewrite Vw; rewrite ?Vl, ?Vr.
  - destruct keyGoesLeft.
    + rewrite app_assoc, in_app_iff, P1. simpl. split.
      * intros [H|[<-|[]]]; [tauto|]. split; auto.
        apply in_or_app; simpl; auto.
      * intros (H & [L|(_ & ->)]); auto.
    + rewrite app_nil_r, P1. split; [tauto|].
      intros (H & [L|(C & _)]); [tauto|discriminate].
  - destruct keyGoesLeft.
    + simpl. rewrite P2. split; [tauto|].
      intros (H & [L|(C & _)]); [tauto|discriminate].
    + change ([kp] ++ VisitInOrder c1 ++ keys_after up)
        with (kp :: VisitInOrder c1 ++ keys_after up).
      simpl In at 1. rewrite P2. split.
      * intros [<-|H]; [|tauto]. split; auto.
        apply in_or_app; simpl; auto.
      * intros (H & [L|(_ & ->)]); auto.
Qed.

(** C4, where [operator<] holds wherever the comparer does (as with the
    default comparer).  When every key of this tree is less than every key
    of the other tree, [MergeWith] succeeds, leaves the other tree empty, and
    this tree holds the keys of both: its traversal is the one of this tree
    followed by the one of the other. *)
Theorem MergeWith_union (operator_lt : T -> T -> bool) (t1 t2 : Node) :
  (forall a b, less m_comp a b -> operator_lt a b = true) ->
  avl t1 -> avl t2 ->
  (forall a c, In a (VisitInOrder t1) -> In c (VisitInOrder t2) ->
               less m_comp a c) ->
  exists r,
    MergeWith operator_lt t1 t2 = Ok (r, nullptr) /\
    (forall x, In x (VisitInOrder r) <->
               In x (VisitInOrder t1) \/ In x (VisitInOrder t2)) /\
    VisitInOrder r = VisitInOrder t1 ++ VisitInOrder t2.
Proof.
  intros Hop A1 A2 H12.
  destruct (@MergeWith_ok operator_lt t1 t2 Hop A1 A2 H12)
    as (r & E & _ & V & _).
  exists r. splits; auto. intros x. rewrite V. apply in_app_iff.
Qed.

(** C5, as amended.  On a non-empty tree, [Split] with a null node handle
    throws [invalid_argument] and leaves the tree as it was. *)
Theorem Split_null_handle_throws (operator_lt : T -> T -> bool) (t : Node)
  (keyGoesLeft : bool) :
  t <> nullptr ->
  Split operator_lt t None keyGoesLeft =
  (t, Throw (invalid_argument "Split: the p argument must be non-null")).
Proof.
  intros Hn. destruct t; [congruence|reflexivity].
Qed.

(** C6.  [Add(v)] on an ordered AVL tree: when [v] is present it returns
    [false] and the tree is the same; when [v] is absent it returns [true]
    and the keys of the new tree are [v] and the old keys.  In the second
    case the new leaf was hung on the node [Find] returned, in the empty
    slot [0] when [v] is less than that node's key and in the empty slot
    [1] when it is greater, before the walk up rebalanced the tree (an
    empty tree just receives the leaf as its root). *)
Theorem Add_inserts (t : Node) (v : T) :
  avl t -> ordered m_comp t ->
  (In v (VisitInOrder t) -> Add m_comp t v = Ok (false, t)) /\
  (~ In v (VisitInOrder t) ->
   exists t',
     Add m_comp t v = Ok (true, t') /\
     (forall x, In x (VisitInOrder t') <-> x = v \/ In x (VisitInOrder t)) /\
     (t = nullptr /\ t' = new_Node v \/
      exists where_ up dir,
        Find m_comp t v = (where_, up) /\
        children where_ dir = nullptr /\
        (dir = I0 /\ (exists k, GetKey where_ = Some k /\ less m_comp v k) \/
         dir = I1 /\ (exists k, GetKey where_ = Some k /\ less m_comp k v)) /\
        Rebalance up (UpdateNodeState (set_children where_ dir (new_Node v)))
        = Ok t')).
Proof.
  intros At Ot.
  destruct (Add_spec v At Ot)
    as [(Hin & E)|(Hnin & t' & l1 & l2 & E & _ & V & V' & _ & _ & _ & Hw)].
  - split; [auto|tauto].
  - split; [tauto|]. intros _. exists t'. splits; auto.
    intros x. rewrite V, V', !in_app_iff. simpl. intuition auto.
Qed.

(** C7.  [Delete(v)] on an ordered AVL tree: when no node holds [v] it
    returns [false] and the tree is the same; when a node holds [v] it
    returns [true] and the keys of the new tree are the old keys without
    [v]. *)
Theorem Delete_removes (t : Node) (v : T) :
  avl t -> ordered m_comp t ->
  (~ In v (VisitInOrder t) -> Delete m_comp t v = Ok (false, t)) /\
  (In v (VisitInOrder t) ->
   exists t',
     Delete m_comp t v = Ok (true, t') /\
     (forall x, In x (VisitInOrder t') <-> In x (VisitInOrder t) /\ x <> v)).
Proof.
  intros At Ot.
  destruct (Delete_spec v At Ot)
    as [(Hnin & E)|(t' & l1 & l2 & E & _ & V & V' & _)].
  - split; [auto|tauto].
  - assert (Hin : In v (VisitInOrder t))
      by (rewrite V; apply in_or_app; simpl; auto).
    split; [tauto|]. intros _. exists t'. split; auto.
    unfold ordered in Ot. rewrite V in Ot.
    pose proof (@sorted_once _ _ _ Ot) as Hv.
    intros x. rewrite V, V', !in_app_iff in *. simpl. split.
    + intros H. split; [tauto|]. intros ->. tauto.
    + intros ([H|[H|H]] & Hx); auto. congruence.
Qed.

(** C9, as amended.  Where [operator<] holds wherever the comparer does (as
    with the default comparer): for an ordered AVL tree and a handle to a
    live node, [Split(p, false)] followed by merging the returned tree back
    with [MergeWith] gives a tree with the original in-order traversal. *)
Theorem Split_MergeWith_round_trip (operator_lt : T -> T -> bool)
  (t : Node) (path : Handle) (kp : T) :
  (forall a b, less m_comp a b -> operator_lt a b = true) ->
  avl t -> ordered m_comp t -> key_at t path = Some kp ->
  exists l r t',
    Split operator_lt t (Some path) false = (l, Ok r) /\
    MergeWith operator_lt l r = Ok (t', nullptr) /\
    VisitInOrder t' = VisitInOrder t.
Proof.
  intros Hop At Ot Hk. unfold key_at in Hk.
  destruct (locate path t []) as [[pn up]|] eqn:EL; [|discriminate].
  destruct (locate_spec _ _ _ EL) as (EP & h & k & b & c0 & c1 & ->).
  destruct (@Split_body_ok operator_lt t path false h k b c0 c1 up Hop
              At Ot EL)
    as (l & r & E & Al & Ar & Vl & Vr & _ & Vt).
  destruct (@MergeWith_ok operator_lt l r Hop Al Ar)
    as (t' & E' & _ & V' & _).
  { unfold ordered in Ot. rewrite <- Vt in Ot. apply sorted_app in Ot.
    tauto. }
  exists l, r, t'. unfold Split. rewrite E.
  destruct t; [simpl in EL; discriminate|].
  splits; auto. now rewrite V', Vt.
Qed.

End Ordered.

(** C10.  On an empty tree [Split] returns an empty tree for every node
    handle, null or not, and the tree stays empty: the null check comes
    after the check for the empty tree. *)
Theorem Split_empty_tree (operator_lt : T -> T -> bool)
  (p : option Handle) (keyGoesLeft : bool) :
  Split operator_lt (@nullptr T B) p keyGoesLeft = (nullptr, Ok nullptr).
Proof. reflexivity. Qed.

End Proofs.

(** ** Order statistics *)

Section OrderStatisticsProofs.

Variable T : Type.

Lemma GetSize_augmented (t : Node T nat) :
  augmented t -> GetSize t = length (VisitInOrder t).
Proof.
  induction t as [|h k s c0 IH0 c1 IH1]; simpl; auto.
  intros (G0 & G1 & ->).
  rewrite length_app; simpl.
  rewrite <- (IH0 G0), <- (IH1 G1).
  destruct c0, c1; simpl; lia.
Qed.

Lemma GetNthSmallestImpl_spec (t : Node T nat) :
  augmented t ->
  forall i : nat,
  (i < length (VisitInOrder t) ->
   exists p k, GetNthSmallestImpl t i = Ok p /\ node_of p t /\
               GetKey p = Some k /\ nth_error (VisitInOrder t) i = Some k) /\
  (length (VisitInOrder t) <= i ->
   GetNthSmallestImpl t i = Throw index_out_of_range).
Proof.
  induction t as [|h k s c0 IH0 c1 IH1]; intros G i.
  { simpl. split; [lia|reflexivity]. }
  pose proof (GetSize_augmented _ G) as Hs. simpl in Hs.
  destruct G as (G0 & G1 & Es).
  pose proof (GetSize_augmented _ G0) as Hs0.
  pose proof (GetSize_augmented _ G1) as Hs1.
  assert (Els : match c0 with nullptr => 0 | _ => GetSize c0 end
                = length (VisitInOrder c0))
    by (rewrite <- Hs0; destruct c0; reflexivity).
  cbn [GetNthSmallestImpl VisitInOrder]. rewrite Els.
  rewrite length_app in *. cbn [length] in *.
  destruct (Nat.leb_spec s i) as [L|L].
  { split; [lia|reflexivity]. }
  split; [intros _|lia].
  destruct (Nat.ltb_spec i (length (VisitInOrder c0))) as [L0|L0].
  - destruct (IH0 G0 i) as (H & _).
    destruct (H L0) as (p & kp & E & Hn & Hk & Hi).
    exists p, kp. splits; auto.
    + simpl. auto.
    + rewrite nth_error_app1; auto.
  - destruct (Nat.eqb_spec i (length (VisitInOrder c0))) as [->|Ne].
    + exists (node h k s c0 c1), k.
      split; [reflexivity|].
      split; [simpl; auto|]. split; [reflexivity|].
      rewrite nth_error_app2, Nat.sub_diag; auto.
    + destruct (IH1 G1 (i - length (VisitInOrder c0) - 1)) as (H & _).
      destruct H as (p & kp & E & Hn & Hk & Hi); [lia|].
      exists p, kp. splits; auto.
      * simpl. auto.
      * rewrite nth_error_app2 by lia.
        replace (i - length (VisitInOrder c0))
          with (S (i - length (VisitInOrder c0) - 1)) by lia.
        exact Hi.
Qed.

(** C8.  For a tree whose size fields are what the size augmentation
    computes, with [n] nodes: for [i < n], [GetNthSmallest] returns a node of
    the tree whose key is the [i]-th key (from 0) of the in-order traversal;
    and it fails, with the exception carrying "Index out of range", exactly
    when [i >= n], which on the empty tree is always. *)
Theorem GetNthSmallest_correct (t : Node T nat) (i : nat) :
  augmented t ->
  (i < length (VisitInOrder t) ->
   exists p k, GetNthSmallest t i = Ok p /\ node_of p t /\
               GetKey p = Some k /\ nth_error (VisitInOrder t) i = Some k) /\
  (GetNthSmallest t i = Throw index_out_of_range <->
   length (VisitInOrder t) <= i).
Proof.
  intros G. destruct (GetNthSmallestImpl_spec t G i) as (H1 & H2).
  unfold GetNthSmallest. split; [exact H1|]. split; [|exact H2].
  intros E. destruct (Nat.le_gt_cases (length (VisitInOrder t)) i) as [L|L];
    auto.
  destruct (H1 L) as (p & k & E' & _). congruence.
Qed.

End OrderStatisticsProofs.

(** ** Integer keys with the usual order *)

Lemma Zltb_STO : StrictTotalOrder Z.ltb.
Proof.
  split.
  - apply Z.ltb_irrefl.
  - intros a b c. rewrite !Z.ltb_lt. lia.
  - intros a b. rewrite !Z.ltb_ge. lia.
Qed.

(** ** The range sum, were the stored sums right *)

Section RangeSumProofs.

Open Scope Z_scope.

Lemma sum_in_range_app (lo hi : Z) (a b : list Z) :
  sum_in_range lo hi (a ++ b) = sum_in_range lo hi a + sum_in_range lo hi b.
Proof.
  unfold sum_in_range. rewrite filter_app.
  induction (filter _ a) as [|x l IH]; simpl; lia.
Qed.

Lemma sum_in_range_cons (lo hi k : Z) (l : list Z) :
  sum_in_range lo hi (k :: l) =
  (if (lo <=? k) && (k <=? hi) then k else 0) + sum_in_range lo hi l.
Proof.
  unfold sum_in_range. simpl.
  destruct ((lo <=? k) && (k <=? hi)); reflexivity.
Qed.

Lemma sum_in_range_none (lo hi : Z) (l : list Z) :
  Forall (fun x => x < lo \/ hi < x) l -> sum_in_range lo hi l = 0.
Proof.
  induction 1 as [|x l Hx _ IH]; [reflexivity|].
  rewrite sum_in_range_cons, IH.
  destruct (Z.leb_spec lo x), (Z.leb_spec x hi); simpl; lia.
Qed.

Lemma sum_in_range_all (lo hi : Z) (l : list Z) :
  Forall (fun x => lo <= x <= hi) l ->
  sum_in_range lo hi l = fold_right Z.add 0 l.
Proof.
  induction 1 as [|x l Hx _ IH]; [reflexivity|].
  rewrite sum_in_range_cons, IH. simpl.
  destruct (Z.leb_spec lo x), (Z.leb_spec x hi); simpl; lia.
Qed.

Lemma sum_app (a b : list Z) :
  fold_right Z.add 0 (a ++ b) = fold_right Z.add 0 a + fold_right Z.add 0 b.
Proof. induction a as [|x a IH]; simpl; lia. Qed.

Lemma subtree_sum_VisitInOrder (p : Node Z Z) :
  subtree_sum p = fold_right Z.add 0 (VisitInOrder p).
Proof.
  induction p as [|h k s c0 IH0 c1 IH1]; simpl; auto.
  rewrite IH0, IH1, sum_app. simpl. lia.
Qed.

(** [GetRangeSumImpl] on an ordered tree whose stored sums are the subtree
    sums, called with bounds that hold of the subtree: the sum of the keys
    within [l] and [h]. *)
Lemma GetRangeSumImpl_correct (p : Node Z Z) :
  sums_correct p -> ordered Z.ltb p ->
  forall (knowMin : bool) (minV : Z) (knowMax : bool) (maxV l h : Z),
  (knowMin = true -> Forall (fun x => minV < x) (VisitInOrder p)) ->
  (knowMax = true -> Forall (fun x => x < maxV) (VisitInOrder p)) ->
  GetRangeSumImpl Z.ltb p knowMin minV knowMax maxV l h =
  sum_in_range l h (VisitInOrder p).
Proof.
  induction p as [|ht k s c0 IH0 c1 IH1]; intros Hs Ho; [reflexivity|].
  destruct Hs as (Es & Hs0 & Hs1).
  apply (ordered_node Zltb_STO) in Ho. destruct Ho as (O0 & O1 & F0 & F1).
  assert (F0' : Forall (fun x => x < k) (VisitInOrder c0)).
  { apply Forall_forall. intros x Hx. apply Z.ltb_lt. exact (F0 x Hx). }
  assert (F1' : Forall (fun x => k < x) (VisitInOrder c1)).
  { apply Forall_forall. intros x Hx. apply Z.ltb_lt. exact (F1 x Hx). }
  intros knowMin minV knowMax maxV l h Bmin Bmax.
  cbn [GetRangeSumImpl VisitInOrder].
  rewrite sum_in_range_app, sum_in_range_cons.
  destruct (knowMin && knowMax && negb (minV <? l) && negb (h <? maxV))
    eqn:Eshort.
  - (* the whole subtree lies within the bounds *)
    rewrite !andb_true_iff, !negb_true_iff, !Z.ltb_ge in Eshort.
    destruct Eshort as (((-> & ->) & Hl) & Hh).
    specialize (Bmin eq_refl). specialize (Bmax eq_refl).
    rewrite <- sum_in_range_cons, <- sum_in_range_app.
    rewrite sum_in_range_all.
    + rewrite Es, subtree_sum_VisitInOrder. reflexivity.
    + rewrite Forall_forall in *. intros x Hx.
      specialize (Bmin x Hx). specialize (Bmax x Hx). lia.
  - clear Eshort.
    assert (Bmin0 : knowMin = true ->
                    Forall (fun x => minV < x) (VisitInOrder c0)).
    { intros E. specialize (Bmin E). cbn [VisitInOrder] in Bmin.
      apply Forall_app in Bmin. tauto. }
    assert (Bmax1 : knowMax = true ->
                    Forall (fun x => x < maxV) (VisitInOrder c1)).
    { intros E. specialize (Bmax E). cbn [VisitInOrder] in Bmax.
      apply Forall_app in Bmax. destruct Bmax as (_ & Bmax).
      inversion Bmax; auto. }
    assert (EL : (if (negb knowMin && (l <? k))
                     || negb (std_min Z.ltb k h <? std_max Z.ltb minV l)
                  then GetRangeSumImpl Z.ltb c0 knowMin minV true k l h
                  else 0) = sum_in_range l h (VisitInOrder c0)).
    { destruct ((negb knowMin && (l <? k))
                || negb (std_min Z.ltb k h <? std_max Z.ltb minV l)) eqn:E.
      - apply IH0; auto.
      - symmetry. apply sum_in_range_none.
        apply orb_false_iff in E. destruct E as (E1 & E2).
        apply andb_false_iff in E1. apply negb_false_iff in E2.
        apply Z.ltb_lt in E2.
        unfold std_min, std_max in E2.
        rewrite Forall_forall in *. intros x Hx. specialize (F0' x Hx).
        destruct E1 as [E1|E1].
        + apply negb_false_iff in E1. specialize (Bmin0 E1).
          specialize (Bmin0 x Hx).
          destruct (Z.ltb_spec h k), (Z.ltb_spec minV l); lia.
        + apply Z.ltb_ge in E1. lia. }
    assert (ER : (if (negb knowMax && (k <? h))
                     || negb (std_min Z.ltb maxV h <? std_max Z.ltb k l)
                  then GetRangeSumImpl Z.ltb c1 true k knowMax maxV l h
                  else 0) = sum_in_range l h (VisitInOrder c1)).
    { destruct ((negb knowMax && (k <? h))
                || negb (std_min Z.ltb maxV h <? std_max Z.ltb k l)) eqn:E.
      - apply IH1; auto.
      - symmetry. apply sum_in_range_none.
        apply orb_false_iff in E. destruct E as (E1 & E2).
        apply andb_false_iff in E1. apply negb_false_iff in E2.
        apply Z.ltb_lt in E2.
        unfold std_min, std_max in E2.
        rewrite Forall_forall in *. intros x Hx. specialize (F1' x Hx).
        destruct E1 as [E1|E1].
        + apply negb_false_iff in E1. specialize (Bmax1 E1).
          specialize (Bmax1 x Hx).
          destruct (Z.ltb_spec h maxV), (Z.ltb_spec k l); lia.
        + apply Z.ltb_ge in E1. lia. }
    rewrite <- EL, <- ER.
    replace ((l <=? k) && (k <=? h)) with (negb (k <? l) && negb (h <? k))
      by (rewrite !Z.leb_antisym; reflexivity).
    destruct (negb (k <? l) && negb (h <? k));
      destruct ((negb knowMin && (l <? k))
                || negb (std_min Z.ltb k h <? std_max Z.ltb minV l));
      destruct ((negb knowMax && (k <? h))
                || negb (std_min Z.ltb maxV h <? std_max Z.ltb k l));
      lia.
Qed.

Lemma augmented_as_specified (t : Node Z Z) :
  @augmented Z Z SumNodeBaseType_as_specified t -> sums_correct t.
Proof.
  induction t as [|h k s c0 IH0 c1 IH1]; simpl; auto.
  intros (G0 & G1 & ->). specialize (IH0 G0). specialize (IH1 G1).
  splits; auto.
  destruct c0 as [|h0 k0 s0 c00 c01], c1 as [|h1 k1 s1 c10 c11]; simpl in *;
    try destruct IH0 as (-> & _); try destruct IH1 as (-> & _); lia.
Qed.

(** With the sum augmentation as the specification words it, every tree
    built by the operations answers [GetRangeSum] with the sum of its keys
    within the bounds: the descent of [GetRangeSumImpl] is right, and the
    divergence from C2 lies in [SumNodeBaseType::UpdateNodeState] alone. *)
Lemma GetRangeSum_correct_as_specified (t : Node Z Z) (lo hi : Z) :
  @reachable Z Z.ltb Z.ltb Z SumNodeBaseType_as_specified t ->
  GetRangeSum Z.ltb t lo hi = sum_of_keys_in_range t lo hi.
Proof.
  intros R.
  destruct (@reachable_inv Z Z.ltb Z SumNodeBaseType_as_specified
              Zltb_STO Z.ltb t R) as (_ & O & G).
  unfold GetRangeSum. apply GetRangeSumImpl_correct; auto; try discriminate.
  apply augmented_as_specified. apply G. intros v. simpl. lia.
Qed.

End RangeSumProofs.

(** The size augmentation of a fresh node is what [UpdateNodeState] gives a
    node without children, so every tree built by the operations has the
    size fields [GetNthSmallest] relies on. *)
Lemma reachable_sized_augmented (T : Type) (m_comp : T -> T -> bool)
  (operator_lt : T -> T -> bool) (t : Node T nat) :
  StrictTotalOrder m_comp -> reachable m_comp operator_lt t -> augmented t.
Proof.
  intros STO R. destruct (reachable_inv STO R) as (_ & _ & G).
  apply G. intros v. reflexivity.
Qed.

Ltac solve_avl := vm_compute; repeat split; lia.
Ltac solve_ordered := unfold ordered; simpl; repeat constructor.

(** The concrete scenarios of the specification. *)

Example scenario_built :
  AddAll Z.ltb nullptr scenario_keys = Ok scenario_tree.
Proof. reflexivity. Qed.

Example scenario_in_order :
  VisitInOrder scenario_tree = [1; 2; 3; 4; 5; 6; 7; 8; 9]%Z /\
  height_or_0 scenario_tree <= 4.
Proof. split; [reflexivity | vm_compute; lia]. Qed.

Example scenario_Delete_5 :
  exists t, Delete Z.ltb scenario_tree 5%Z = Ok (true, t) /\
            VisitInOrder t = [1; 2; 3; 4; 6; 7; 8; 9]%Z /\ avl t.
Proof. eexists; split; [reflexivity|]. split; [reflexivity|solve_avl]. Qed.

Example scenario_Split_at_5 :
  exists l r, Split Z.ltb scenario_tree (Some []) false = (l, Ok r) /\
              VisitInOrder l = [1; 2; 3; 4]%Z /\
              VisitInOrder r = [5; 6; 7; 8; 9]%Z.
Proof. do 2 eexists; split; [reflexivity|]. split; reflexivity. Qed.

Example scenario_GetNthSmallest :
  AddAll Z.ltb nullptr scenario_keys = Ok scenario_tree_sized /\
  (r <- GetNthSmallest scenario_tree_sized 0 ;; Ok (GetKey r))
  = Ok (Some 1%Z) /\
  (r <- GetNthSmallest scenario_tree_sized 8 ;; Ok (GetKey r))
  = Ok (Some 9%Z) /\
  GetNthSmallest scenario_tree_sized 9 = Throw index_out_of_range.
Proof. repeat split; reflexivity. Qed.

(** *** Witnesses *)

Lemma invariant_preservation_witness :
  reachable Z.ltb Z.ltb tree_21 /\
  (every_node (fun n => balanced n /\ height_correct n /\
                        height_or_0 n = tree_height n) tree_21 /\
   StronglySorted (less Z.ltb) (VisitInOrder tree_21)).
Proof.
  assert (R123 : reachable Z.ltb Z.ltb tree_123).
  { apply reach_Add with (t := node 2 2%Z tt tree_1 nullptr) (v := 3%Z)
                         (res := true); [|reflexivity].
    apply reach_Add with (t := node 1 2%Z tt nullptr nullptr) (v := 1%Z)
                         (res := true); [|reflexivity].
    apply reach_Add with (t := nullptr) (v := 2%Z) (res := true);
      [apply reach_empty|reflexivity]. }
  assert (Hp : tree_123 = nullptr \/
               exists path, Some (@nil ChildIndex) = Some path /\
                            locate path tree_123 [] <> None).
  { right. exists []. split; [reflexivity|discriminate]. }
  assert (R : reachable Z.ltb Z.ltb tree_21).
  { apply reach_Delete with (t := tree_123) (v := 3%Z) (res := true);
      [|reflexivity].
    apply reach_MergeWith_this with (t1 := tree_1) (t2 := tree_23)
                                    (t2' := nullptr); [| | |reflexivity].
    - apply reach_Split_this with (t := tree_123) (p := Some [])
                                  (goesLeft := false) (r := tree_23);
        [exact R123|exact Hp|reflexivity].
    - apply reach_Split_returned with (t := tree_123) (p := Some [])
                                      (goesLeft := false) (t' := tree_1);
        [exact R123|exact Hp|reflexivity].
    - simpl. intros a b [<-|[]] [<-|[<-|[]]]; reflexivity. }
  split; [exact R|].
  exact (@invariant_preservation Z Z.ltb unit _ Zltb_STO Z.ltb tree_21 R).
Defined.

Lemma Split_partitions_witness :
  (forall a b, less Z.ltb a b -> Z.ltb a b = true) /\
  avl scenario_tree /\ ordered Z.ltb scenario_tree /\
  key_at scenario_tree [] = Some 5%Z /\
  exists l r,
    Split Z.ltb scenario_tree (Some []) false = (l, Ok r) /\
    (forall x, In x (VisitInOrder l) <->
               In x (VisitInOrder scenario_tree) /\
               (less Z.ltb x 5%Z \/ false = true /\ x = 5%Z)) /\
    (forall x, In x (VisitInOrder r) <->
               In x (VisitInOrder scenario_tree) /\
               (less Z.ltb 5%Z x \/ false = false /\ x = 5%Z)) /\
    VisitInOrder l ++ VisitInOrder r = VisitInOrder scenario_tree.
Proof.
  assert (L : forall a b, less Z.ltb a b -> Z.ltb a b = true)
    by (intros a b H; exact H).
  assert (A : avl scenario_tree) by solve_avl.
  assert (O : ordered Z.ltb scenario_tree) by solve_ordered.
  split; [exact L|]. split; [exact A|]. split; [exact O|].
  split; [reflexivity|].
  exact (@Split_partitions Z Z.ltb unit _ Zltb_STO Z.ltb scenario_tree []
           false 5%Z L A O eq_refl).
Defined.

Lemma MergeWith_union_witness :
  (forall a b, less Z.ltb a b -> Z.ltb a b = true) /\
  avl tree_1 /\ avl tree_23 /\
  (forall a c, In a (VisitInOrder tree_1) -> In c (VisitInOrder tree_23) ->
               less Z.ltb a c) /\
  exists r,
    MergeWith Z.ltb tree_1 tree_23 = Ok (r, nullptr) /\
    (forall x, In x (VisitInOrder r) <->
               In x (VisitInOrder tree_1) \/ In x (VisitInOrder tree_23)) /\
    VisitInOrder r = VisitInOrder tree_1 ++ VisitInOrder tree_23.
Proof.
  assert (A1 : avl tree_1) by solve_avl.
  assert (A2 : avl tree_23) by solve_avl.
  assert (H : forall a c, In a (VisitInOrder tree_1) ->
                          In c (VisitInOrder tree_23) -> less Z.ltb a c).
  { simpl. intros a c [<-|[]] [<-|[<-|[]]]; reflexivity. }
  assert (L : forall a b, less Z.ltb a b -> Z.ltb a b = true)
    by (intros a b Hab; exact Hab).
  split; [exact L|]. split; [exact A1|]. split; [exact A2|].
  split; [exact H|].
  exact (@MergeWith_union Z Z.ltb unit _ Z.ltb tree_1 tree_23 L A1 A2 H).
Defined.

Lemma Split_null_handle_throws_witness :
  tree_1 <> nullptr /\
  Split Z.ltb tree_1 None true =
  (tree_1, Throw (invalid_argument "Split: the p argument must be non-null")).
Proof.
  assert (N : tree_1 <> nullptr) by discriminate.
  split; [exact N|].
  exact (@Split_null_handle_throws Z unit _ Z.ltb tree_1 true N).
Defined.

Lemma Add_inserts_witness :
  avl tree_123 /\ ordered Z.ltb tree_123 /\
  (In 4%Z (VisitInOrder tree_123) ->
   Add Z.ltb tree_123 4%Z = Ok (false, tree_123)) /\
  (~ In 4%Z (VisitInOrder tree_123) ->
   exists t',
     Add Z.ltb tree_123 4%Z = Ok (true, t') /\
     (forall x, In x (VisitInOrder t') <->
                x = 4%Z \/ In x (VisitInOrder tree_123)) /\
     (tree_123 = nullptr /\ t' = new_Node 4%Z \/
      exists where_ up dir,
        Find Z.ltb tree_123 4%Z = (where_, up) /\
        children where_ dir = nullptr /\
        (dir = I0 /\
         (exists k, GetKey where_ = Some k /\ less Z.ltb 4%Z k) \/
         dir = I1 /\
         (exists k, GetKey where_ = Some k /\ less Z.ltb k 4%Z)) /\
        Rebalance up (UpdateNodeState
                        (set_children where_ dir (new_Node 4%Z)))
        = Ok t')).
Proof.
  assert (A : avl tree_123) by solve_avl.
  assert (O : ordered Z.ltb tree_123) by solve_ordered.
  split; [exact A|]. split; [exact O|].
  exact (@Add_inserts Z Z.ltb unit _ Zltb_STO tree_123 4%Z A O).
Defined.

Lemma Delete_removes_witness :
  avl tree_123 /\ ordered Z.ltb tree_123 /\
  (~ In 2%Z (VisitInOrder tree_123) ->
   Delete Z.ltb tree_123 2%Z = Ok (false, tree_123)) /\
  (In 2%Z (VisitInOrder tree_123) ->
   exists t',
     Delete Z.ltb tree_123 2%Z = Ok (true, t') /\
     (forall x, In x (VisitInOrder t') <->
                In x (VisitInOrder tree_123) /\ x <> 2%Z)).
Proof.
  assert (A : avl tree_123) by solve_avl.
  assert (O : ordered Z.ltb tree_123) by solve_ordered.
  split; [exact A|]. split; [exact O|].
  exact (@Delete_removes Z Z.ltb unit _ Zltb_STO tree_123 2%Z A O).
Defined.

Lemma GetNthSmallest_correct_witness :
  augmented scenario_tree_sized /\
  (8 < length (VisitInOrder scenario_tree_sized) ->
   exists p k, GetNthSmallest scenario_tree_sized 8 = Ok p /\
               node_of p scenario_tree_sized /\ GetKey p = Some k /\
               nth_error (VisitInOrder scenario_tree_sized) 8 = Some k) /\
  (GetNthSmallest scenario_tree_sized 8 = Throw index_out_of_range <->
   length (VisitInOrder scenario_tree_sized) <= 8).
Proof.
  assert (G : augmented scenario_tree_sized)
    by (vm_compute; repeat split; reflexivity).
  split; [exact G|].
  exact (@GetNthSmallest_correct Z scenario_tree_sized 8 G).
Defined.

Lemma Split_MergeWith_round_trip_witness :
  (forall a b, less Z.ltb a b -> Z.ltb a b = true) /\
  avl tree_123 /\ ordered Z.ltb tree_123 /\
  key_at tree_123 [] = Some 2%Z /\
  exists l r t',
    Split Z.ltb tree_123 (Some []) false = (l, Ok r) /\
    MergeWith Z.ltb l r = Ok (t', nullptr) /\
    VisitInOrder t' = VisitInOrder tree_123.
Proof.
  assert (L : forall a b, less Z.ltb a b -> Z.ltb a b = true)
    by (intros a b H; exact H).
  assert (A : avl tree_123) by solve_avl.
  assert (O : ordered Z.ltb tree_123) by solve_ordered.
  split; [exact L|]. split; [exact A|]. split; [exact O|].
  split; [reflexivity|].
  exact (@Split_MergeWith_round_trip Z Z.ltb unit _ Zltb_STO Z.ltb tree_123
           [] 2%Z L A O eq_refl).
Defined.

(** *** Counterexamples *)

(** C5 as stated fails on the empty tree: a null handle is not looked at,
    and the call returns an empty tree. *)
Lemma Split_null_handle_on_empty_tree :
  Split Z.ltb (@nullptr Z unit) None false = (nullptr, Ok nullptr) /\
  snd (Split Z.ltb (@nullptr Z unit) None false) <>
  Throw (invalid_argument "Split: the p argument must be non-null").
Proof. split; [reflexivity|discriminate]. Qed.

(** C9 as stated fails on the tree with keys 1, 2, 3 split at the node with
    key 2.  [Split] leaves 1 and returns 2, 3; merging the singleton 2 into
    the left part gives 1, 2; the last [MergeWith] then receives two trees
    that both hold 2 and its assertion fails.  Past the assertion, the steps
    of [MergeWith] would build a tree that holds 2 twice. *)
Lemma round_trip_with_singleton_fails :
  Split Z.ltb tree_123 (Some []) false = (tree_1, Ok tree_23) /\
  MergeWith Z.ltb tree_1 (new_Node 2%Z) = Ok (tree_12, nullptr) /\
  MergeWith Z.ltb tree_12 tree_23 = AssertFailed /\
  ('(mx, rest) <- ExtractMax tree_12 ;;
   '(t', _) <- MergeWithRoot rest mx tree_23 ;;
   Ok (VisitInOrder t')) = Ok [1; 2; 2; 3]%Z /\
  ~ (exists l r l1 e1 l2 e2,
       Split Z.ltb tree_123 (Some []) false = (l, Ok r) /\
       MergeWith Z.ltb l (new_Node 2%Z) = Ok (l1, e1) /\
       MergeWith Z.ltb l1 r = Ok (l2, e2) /\
       forall x, In x (VisitInOrder l2) <-> In x (VisitInOrder tree_123)).
Proof.
  splits; try reflexivity.
  intros (l & r & l1 & e1 & l2 & e2 & E1 & E2 & E3 & _).
  change (Split Z.ltb tree_123 (Some []) false) with (tree_1, Ok tree_23)
    in E1.
  inversion E1; subst l r.
  change (MergeWith Z.ltb tree_1 (new_Node 2%Z)) with
    (@Ok (Node Z unit * Node Z unit) (tree_12, nullptr)) in E2.
  inversion E2; subst l1 e1.
  discriminate E3.
Qed.

(** C4 does not hold of the code when the comparer is not [operator<].  The
    two trees are those of [AVLTree<int, std::greater<int>>] after adding
    5, 4 and 2, 1.  Every key of the first compares less than every key of
    the second (it is the greater number), so the precondition of the claim
    holds.  The assertion of [MergeWith] asks for [4 < 2] with [operator<]
    and fails.  With the comparer in the place of [operator<] the call
    returns what the claim says. *)
Theorem MergeWith_asserts_with_operator_lt :
  AddAll Z.gtb nullptr [5; 4]%Z = Ok descending_54 /\
  AddAll Z.gtb nullptr [2; 1]%Z = Ok descending_21 /\
  avl descending_54 /\ avl descending_21 /\
  (forall a c, In a (VisitInOrder descending_54) ->
               In c (VisitInOrder descending_21) -> less Z.gtb a c) /\
  MergeWith Z.ltb descending_54 descending_21 = AssertFailed /\
  exists r,
    MergeWith Z.gtb descending_54 descending_21 = Ok (r, nullptr) /\
    VisitInOrder r = [5; 4; 2; 1]%Z.
Proof.
  splits; try reflexivity; try solve_avl.
  - simpl. intros a c [<-|[<-|[]]] [<-|[<-|[]]]; reflexivity.
  - eexists. split; reflexivity.
Qed.

(** C3 does not hold of the code when the comparer is not [operator<]; the
    defect is the one of C4.  The tree is the one of
    [AVLTree<int, std::greater<int>>] after adding 2, 1, 3, in order 3, 2,
    1.  [Split] at its root hands the node with 2 and the subtree with 1
    (or the subtree with 3 and the node with 2) to [MergeWith], whose
    assertion asks for [2 < 1] (or [3 < 2]) with [operator<] and fails.
    With the comparer in the place of [operator<] the call returns the two
    parts the claim describes. *)
Theorem Split_asserts_with_operator_lt :
  AddAll Z.gtb nullptr [2; 1; 3]%Z = Ok descending_321 /\
  avl descending_321 /\ ordered Z.gtb descending_321 /\
  key_at descending_321 [] = Some 2%Z /\
  snd (Split Z.ltb descending_321 (Some []) false) = AssertFailed /\
  snd (Split Z.ltb descending_321 (Some []) true) = AssertFailed /\
  exists l r,
    Split Z.gtb descending_321 (Some []) false = (l, Ok r) /\
    VisitInOrder l = [3]%Z /\ VisitInOrder r = [2; 1]%Z.
Proof.
  splits; try reflexivity; try solve_avl; try solve_ordered.
  do 2 eexists. splits; reflexivity.
Qed.

(** C2 does not hold of the code.  The tree below is built by [Add] with the
    sum augmentation; its nodes carry what [UpdateNodeState] computes, which
    is the key plus the keys of the two children, not the sum of the
    subtree.  [GetRangeSum] for the bounds 3 and 8 reaches the node with key
    6 knowing that its whole subtree (4, 5, 6, 7) lies within the bounds,
    and takes its stored sum, 17, for the 22 the keys add up to. *)
Theorem GetRangeSum_uses_wrong_sums :
  AddAll Z.ltb nullptr range_sum_keys = Ok range_sum_tree /\
  augmented range_sum_tree /\
  GetRangeSum Z.ltb range_sum_tree 3 8 = 28%Z /\
  sum_of_keys_in_range range_sum_tree 3 8 = 33%Z /\
  ~ sums_correct range_sum_tree.
Proof.
  splits; try reflexivity.
  - vm_compute. repeat split; reflexivity.
  - intros H. vm_compute in H. destruct H as (H & _). discriminate H.
Qed.



(** * Navigation, search and the restructuring steps *)

Section NavigationProofs.

Variable T : Type.
Variable m_comp : T -> T -> bool.
Variable B : Type.
Context {NB : NodeBaseType T B}.

Local Abbreviation Node := (Node T B).
Local Abbreviation Parent := (Parent T B).

(** *** Traversals *)

Lemma VisitPreOrder_perm (t : Node) :
  Permutation (VisitPreOrder t) (VisitInOrder t).
Proof.
  induction t as [|h k b c0 IH0 c1 IH1]; simpl; [constructor|].
  apply Permutation_cons_app. now apply Permutation_app.
Qed.

Lemma VisitPostOrder_perm (t : Node) :
  Permutation (VisitPostOrder t) (VisitInOrder t).
Proof.
  induction t as [|h k b c0 IH0 c1 IH1]; simpl; [constructor|].
  apply Permutation_app; auto.
  apply Permutation_trans with (k :: VisitPostOrder c1).
  - apply Permutation_sym, Permutation_cons_append.
  - now constructor.
Qed.

(** *** Pointers into the tree *)

Lemma plug_all_app (a b : list Parent) (c : Node) :
  plug_all (a ++ b) c = plug_all b (plug_all a c).
Proof. revert c; induction a as [|f a IH]; intro c; simpl; auto. Qed.

Lemma points_at_traversal (t cur : Node) (up : list Parent)
  (l1 : list T) (k : T) (l2 : list T) :
  points_at t cur up l1 k l2 -> VisitInOrder t = l1 ++ k :: l2.
Proof.
  intros (<- & h & b & c0 & c1 & -> & -> & ->).
  rewrite VisitInOrder_plug_all. list_eq.
Qed.

Lemma locate_points_at (path : Handle) (t cur : Node) (up : list Parent) :
  locate path t [] = Some (cur, up) ->
  exists l1 k l2, points_at t cur up l1 k l2.
Proof.
  intros E. apply locate_spec in E.
  destruct E as (EP & h & k & b & c0 & c1 & ->). simpl in EP.
  exists (keys_before up ++ VisitInOrder c0), k,
         (VisitInOrder c1 ++ keys_after up).
  split; auto. exists h, b, c0, c1. auto.
Qed.

Lemma climb_to_next (up : list Parent) :
  forall p : Node,
  (keys_after up = [] /\ GetNextImpl_climb I1 p up = (nullptr, [])) \/
  (exists hq kq bq q0 q1 uq,
     GetNextImpl_climb I1 p up = (node hq kq bq q0 q1, uq) /\
     plug_all uq (node hq kq bq q0 q1) = plug_all up p /\
     keys_before uq ++ VisitInOrder q0 = keys_before up ++ VisitInOrder p /\
     keys_after up = kq :: VisitInOrder q1 ++ keys_after uq).
Proof.
  induction up as [|f up IH]; intros p; [left; auto|].
  destruct f as [[] h k b o]; cbn [GetNextImpl_climb slot].
  - right. exists h, k, b, p, o, up. unfold plug; simpl.
    splits; auto. list_eq.
  - destruct (IH (plug (mkParent I1 h k b o) p))
      as [(E1 & E2)|(hq & kq & bq & q0 & q1 & uq & E & EP & E1 & E2)].
    + left. simpl. auto.
    + right. exists hq, kq, bq, q0, q1, uq. splits; auto.
      rewrite E1. unfold plug; simpl. list_eq.
Qed.

Lemma climb_to_prev (up : list Parent) :
  forall p : Node,
  (keys_before up = [] /\ GetNextImpl_climb I0 p up = (nullptr, [])) \/
  (exists hq kq bq q0 q1 uq,
     GetNextImpl_climb I0 p up = (node hq kq bq q0 q1, uq) /\
     plug_all uq (node hq kq bq q0 q1) = plug_all up p /\
     VisitInOrder q1 ++ keys_after uq = VisitInOrder p ++ keys_after up /\
     keys_before up = keys_before uq ++ VisitInOrder q0 ++ [kq]).
Proof.
  induction up as [|f up IH]; intros p; [left; auto|].
  destruct f as [[] h k b o]; cbn [GetNextImpl_climb slot].
  - destruct (IH (plug (mkParent I0 h k b o) p))
      as [(E1 & E2)|(hq & kq & bq & q0 & q1 & uq & E & EP & E1 & E2)].
    + left. simpl. rewrite E1. auto.
    + right. exists hq, kq, bq, q0, q1, uq. splits; auto.
      * rewrite E1. unfold plug; simpl. list_eq.
      * simpl. rewrite E2. list_eq.
  - right. exists h, k, b, o, p, up. unfold plug; simpl.
    splits; auto.
Qed.

Lemma GetNextImpl_next (t cur : Node) (up : list Parent)
  (l1 : list T) (k : T) (l2 : list T) :
  points_at t cur up l1 k l2 ->
  exists q uq,
    GetNextImpl cur up I1 = Ok (q, uq) /\
    match l2 with
    | [] => q = nullptr
    | k' :: l2' => points_at t q uq (l1 ++ [k]) k' l2'
    end.
Proof.
  intros (EP & h & b & c0 & c1 & -> & -> & ->).
  destruct c1 as [|h1 k1 b1 c10 c11].
  - cbn [GetNextImpl children].
    destruct (climb_to_next up (node h k b c0 nullptr))
      as [(E1 & E2)|(hq & kq & bq & q0 & q1 & uq & E & EP' & E1 & E2)].
    + rewrite E2. exists nullptr, []. rewrite E1. simpl. auto.
    + rewrite E. do 2 eexists. split; [reflexivity|].
      simpl. rewrite E2. split; [congruence|].
      exists hq, bq, q0, q1. splits; auto.
      rewrite E1. list_eq.
  - cbn [GetNextImpl children other].
    destruct (@descend_spec T B I0 (node h1 k1 b1 c10 c11)
                (mkParent I1 h k b c0 :: up))
      as (hq & kq & bq & q0 & q1 & ext & E & EPq & Hq0 & Hs);
      [discriminate|].
    cbn [children] in Hq0. subst q0.
    rewrite E. do 2 eexists. split; [reflexivity|].
    rewrite <- EPq, VisitInOrder_plug_all, (keys_before_all0 Hs).
    simpl. split.
    + rewrite plug_all_app, EPq. exact EP.
    + exists hq, bq, nullptr, q1. splits; auto.
      * rewrite keys_before_app, (keys_before_all0 Hs). list_eq.
      * rewrite keys_after_app. list_eq.
Qed.

Lemma GetNextImpl_prev (t cur : Node) (up : list Parent)
  (l1 : list T) (k : T) (l2 : list T) :
  points_at t cur up l1 k l2 ->
  exists q uq,
    GetNextImpl cur up I0 = Ok (q, uq) /\
    (l1 = [] /\ q = nullptr \/
     exists l1' k', l1 = l1' ++ [k'] /\ points_at t q uq l1' k' (k :: l2)).
Proof.
  intros (EP & h & b & c0 & c1 & -> & -> & ->).
  destruct c0 as [|h0 k0 b0 c00 c01].
  - cbn [GetNextImpl children].
    destruct (climb_to_prev up (node h k b nullptr c1))
      as [(E1 & E2)|(hq & kq & bq & q0 & q1 & uq & E & EP' & E1 & E2)].
    + rewrite E2. exists nullptr, []. rewrite E1. simpl. auto.
    + rewrite E. do 2 eexists. split; [reflexivity|]. right.
      exists (keys_before uq ++ VisitInOrder q0), kq. split.
      * rewrite E2. list_eq.
      * split; [congruence|].
        exists hq, bq, q0, q1. splits; auto.
  - cbn [GetNextImpl children other].
    destruct (@descend_spec T B I1 (node h0 k0 b0 c00 c01)
                (mkParent I0 h k b c1 :: up))
      as (hq & kq & bq & q0 & q1 & ext & E & EPq & Hq1 & Hs);
      [discriminate|].
    cbn [children] in Hq1. subst q1.
    rewrite E. do 2 eexists. split; [reflexivity|]. right.
    exists (keys_before up ++ keys_before ext ++ VisitInOrder q0), kq.
    split.
    + rewrite <- EPq, VisitInOrder_plug_all, (keys_after_all1 Hs). list_eq.
    + split.
      * rewrite plug_all_app, EPq. exact EP.
      * exists hq, bq, q0, nullptr. splits; auto.
        -- rewrite keys_before_app. list_eq.
        -- rewrite keys_after_app, (keys_after_all1 Hs). list_eq.
Qed.

Lemma follow_GetNext_from (l2 : list T) :
  forall (t cur : Node) (up : list Parent) (l1 : list T) (k : T)
         (steps : nat),
  points_at t cur up l1 k l2 -> length (k :: l2) <= steps ->
  follow_GetNext steps cur up = Ok (k :: l2).
Proof.
  induction l2 as [|k' l2 IH]; intros t cur up l1 k steps P L;
    (destruct steps as [|n]; [simpl in L; lia|]);
    destruct (GetNextImpl_next P) as (q & uq & E & Hq);
    destruct P as (_ & h & b & c0 & c1 & -> & _);
    cbn [follow_GetNext]; rewrite E; cbn [bind].
  - subst q. destruct n; reflexivity.
  - rewrite (IH _ _ _ _ _ n Hq); [reflexivity|]. simpl in *; lia.
Qed.

Lemma GetExtreme_at_first (t : Node) :
  t <> nullptr ->
  exists cur up k l2,
    GetExtreme_at t I0 = (cur, up) /\ points_at t cur up [] k l2.
Proof.
  intros Hn.
  destruct (@descend_spec T B I0 t [] Hn)
    as (h & k & b & c0 & c1 & ext & E & EP & Hc & Hs).
  cbn [children] in Hc. subst c0. rewrite app_nil_r in E.
  exists (node h k b nullptr c1), ext, k, (VisitInOrder c1 ++ keys_after ext).
  split.
  - destruct t; [congruence|exact E].
  - split; auto. exists h, b, nullptr, c1. splits; auto.
    rewrite (keys_before_all0 Hs). reflexivity.
Qed.

Lemma GetExtreme_keys (t : Node) :
  GetKey (GetMin t) = hd_error (VisitInOrder t) /\
  GetKey (GetMax t) = hd_error (rev (VisitInOrder t)) /\
  (GetMin t = nullptr <-> t = nullptr) /\
  (GetMax t = nullptr <-> t = nullptr).
Proof.
  destruct t as [|ht kt bt t0 t1].
  { simpl. splits; auto; tauto. }
  remember (node ht kt bt t0 t1) as t eqn:Et.
  assert (Hn : t <> nullptr) by (subst; discriminate).
  destruct (@descend_spec T B I0 t [] Hn)
    as (h & k & b & c0 & c1 & ext & E & EP & Hc & Hs).
  destruct (@descend_spec T B I1 t [] Hn)
    as (h' & k' & b' & c0' & c1' & ext' & E' & EP' & Hc' & Hs').
  cbn [children] in Hc, Hc'. subst c0 c1'. rewrite app_nil_r in E, E'.
  assert (Emin : GetMin t = node h k b nullptr c1)
    by (unfold GetMin, GetExtreme; subst t; rewrite E; reflexivity).
  assert (Emax : GetMax t = node h' k' b' c0' nullptr)
    by (unfold GetMax, GetExtreme; subst t; rewrite E'; reflexivity).
  rewrite Emin, Emax. splits.
  - rewrite <- EP at 1. rewrite VisitInOrder_plug_all, (keys_before_all0 Hs).
    reflexivity.
  - rewrite <- EP' at 1.
    rewrite VisitInOrder_plug_all, (keys_after_all1 Hs'), app_nil_r.
    simpl. rewrite !app_assoc, rev_app_distr. reflexivity.
  - split; [discriminate|]. intros ->. congruence.
  - split; [discriminate|]. intros ->. congruence.
Qed.

(** ** Traversals and navigation *)

(** X1.  The pre-order and the post-order traversal visit the keys the
    in-order traversal visits, each as often; the pre-order traversal of a
    non-empty tree starts with the root's key and the post-order traversal
    ends with it. *)
Theorem VisitPreOrder_VisitPostOrder_visit_all (t : Node) :
  Permutation (VisitPreOrder t) (VisitInOrder t) /\
  Permutation (VisitPostOrder t) (VisitInOrder t) /\
  hd_error (VisitPreOrder t) = GetKey t /\
  hd_error (rev (VisitPostOrder t)) = GetKey t.
Proof.
  splits.
  - apply VisitPreOrder_perm.
  - apply VisitPostOrder_perm.
  - destruct t; reflexivity.
  - destruct t as [|h k b c0 c1]; [reflexivity|]. simpl.
    rewrite app_assoc, rev_app_distr. reflexivity.
Qed.

(** X2.  [GetMin] returns the node whose key the in-order traversal visits
    first and [GetMax] the node whose key it visits last; on the empty tree
    both return null. *)
Theorem GetMin_GetMax_ends_of_traversal (t : Node) :
  GetKey (GetMin t) = hd_error (VisitInOrder t) /\
  GetKey (GetMax t) = hd_error (rev (VisitInOrder t)) /\
  (GetMin t = nullptr <-> t = nullptr) /\
  (GetMax t = nullptr <-> t = nullptr).
Proof. exact (GetExtreme_keys t). Qed.

(** X3.  [GetNext] on a handle to a live node returns the node the in-order
    traversal visits next, and null when the node is the last one: the node
    returned is a node of the same tree, its key is the key that follows in
    the traversal, and it lies one position further. *)
Theorem GetNext_successor (t : Node) (path : Handle) (cur : Node)
  (up : list Parent) :
  locate path t [] = Some (cur, up) ->
  exists l1 k l2,
    points_at t cur up l1 k l2 /\ VisitInOrder t = l1 ++ k :: l2 /\
    exists q uq,
      GetNext t (Some path) = Ok (q, uq) /\
      match l2 with
      | [] => q = nullptr
      | k' :: l2' => points_at t q uq (l1 ++ [k]) k' l2'
      end.
Proof.
  intros E. destruct (locate_points_at _ _ E) as (l1 & k & l2 & P).
  exists l1, k, l2. splits; auto.
  - exact (points_at_traversal P).
  - unfold GetNext, GetNextOrPrev. rewrite E. exact (GetNextImpl_next P).
Qed.

(** X4.  [GetPrev] on a handle to a live node returns the node the in-order
    traversal visits just before, and null when the node is the first
    one. *)
Theorem GetPrev_predecessor (t : Node) (path : Handle) (cur : Node)
  (up : list Parent) :
  locate path t [] = Some (cur, up) ->
  exists l1 k l2,
    points_at t cur up l1 k l2 /\ VisitInOrder t = l1 ++ k :: l2 /\
    exists q uq,
      GetPrev t (Some path) = Ok (q, uq) /\
      (l1 = [] /\ q = nullptr \/
       exists l1' k', l1 = l1' ++ [k'] /\ points_at t q uq l1' k' (k :: l2)).
Proof.
  intros E. destruct (locate_points_at _ _ E) as (l1 & k & l2 & P).
  exists l1, k, l2. splits; auto.
  - exact (points_at_traversal P).
  - unfold GetPrev, GetNextOrPrev. rewrite E. exact (GetNextImpl_prev P).
Qed.

(** X5.  Going to the next node and back, or to the previous node and
    forth, ends at the position it started from: the pointer that comes back
    is to the node with the same key at the same place of the traversal. *)
Theorem GetNext_GetPrev_round_trip (t cur : Node) (up : list Parent)
  (l1 : list T) (k : T) (l2 : list T) (dir : ChildIndex) (q : Node)
  (uq : list Parent) :
  points_at t cur up l1 k l2 ->
  GetNextImpl cur up dir = Ok (q, uq) -> q <> nullptr ->
  exists cur' up',
    GetNextImpl q uq (other dir) = Ok (cur', up') /\
    points_at t cur' up' l1 k l2.
Proof.
  intros P E Hq. destruct dir; cbn [other].
  - destruct (GetNextImpl_prev P) as (q' & uq' & E' & H).
    rewrite E in E'. inversion E'; subst q' uq'.
    destruct H as [(_ & Hn)|(l1' & k' & -> & P')]; [contradiction|].
    destruct (GetNextImpl_next P') as (c' & u' & E2 & P2).
    exists c', u'. auto.
  - destruct (GetNextImpl_next P) as (q' & uq' & E' & H).
    rewrite E in E'. inversion E'; subst q' uq'.
    destruct l2 as [|k' l2']; [contradiction|].
    destruct (GetNextImpl_prev H) as (c' & u' & E2 & [(E3 & _)|P2]).
    + destruct l1; discriminate.
    + destruct P2 as (l1' & k2 & E3 & P2).
      apply app_inj_tail in E3. destruct E3 as (<- & <-).
      exists c', u'. auto.
Qed.

(** X6.  Starting at [GetMin] and following [GetNext] until it returns null
    meets the keys in the order of the in-order traversal, all of them,
    within as many steps as the tree has nodes. *)
Theorem GetMin_GetNext_enumerates (t : Node) (steps : nat) :
  length (VisitInOrder t) <= steps ->
  follow_GetNext steps (fst (GetExtreme_at t I0)) (snd (GetExtreme_at t I0))
  = Ok (VisitInOrder t).
Proof.
  intros L. destruct t as [|ht kt bt t0 t1].
  { destruct steps; reflexivity. }
  destruct (@GetExtreme_at_first (node ht kt bt t0 t1))
    as (cur & up & k & l2 & E & P); [discriminate|].
  rewrite E. cbn [fst snd].
  rewrite (points_at_traversal P) in *.
  exact (follow_GetNext_from P L).
Qed.

Lemma FindImpl_not_null (v : T) (n : Node) :
  forall up : list Parent,
  n <> nullptr -> fst (FindImpl m_comp v n up) <> nullptr.
Proof.
  induction n as [|h k b c0 IH0 c1 IH1]; intros up Hn; [congruence|].
  simpl. destruct (m_comp v k).
  - destruct c0; [discriminate|]. apply IH0. discriminate.
  - destruct (m_comp k v); [|discriminate].
    destruct c1; [discriminate|]. apply IH1. discriminate.
Qed.

Lemma FindImpl_descent (v : T) (n : Node) :
  forall up : list Parent,
  exists ext,
    snd (FindImpl m_comp v n up) = ext ++ up /\
    Forall (went_towards m_comp v) ext /\
    plug_all ext (fst (FindImpl m_comp v n up)) = n /\
    search_stops_at m_comp v (fst (FindImpl m_comp v n up)).
Proof.
  induction n as [|h k b c0 IH0 c1 IH1]; intros up.
  { exists []. simpl. splits; auto. }
  cbn [FindImpl]. destruct (m_comp v k) eqn:E1.
  - destruct c0 as [|h0 k0 b0 c00 c01].
    + exists []. cbn [fst snd plug_all search_stops_at app].
      rewrite E1. splits; auto.
    + destruct (IH0 (mkParent I0 h k b c1 :: up)) as (ext & Eu & F & P & S).
      exists (ext ++ [mkParent I0 h k b c1]).
      rewrite Eu, <- app_assoc.
      split; [reflexivity|]. split; [|split; [|exact S]].
      * apply Forall_app. split; [exact F|].
        constructor; [exact E1|constructor].
      * rewrite plug_all_app, P. reflexivity.
  - destruct (m_comp k v) eqn:E2.
    + destruct c1 as [|h1 k1 b1 c10 c11].
      * exists []. cbn [fst snd plug_all search_stops_at app].
        rewrite E1, E2. splits; auto.
      * destruct (IH1 (mkParent I1 h k b c0 :: up))
          as (ext & Eu & F & P & S).
        exists (ext ++ [mkParent I1 h k b c0]).
        rewrite Eu, <- app_assoc.
        split; [reflexivity|]. split; [|split; [|exact S]].
        -- apply Forall_app. split; [exact F|].
           constructor; [split; assumption|constructor].
        -- rewrite plug_all_app, P. reflexivity.
    + exists []. cbn [fst snd plug_all search_stops_at app].
      rewrite E1, E2. splits; auto.
Qed.

(** X7.  Whatever the shape of the tree and the comparer, [Find] returns the
    node at which the descent by comparisons ends: a node of the tree, null
    only when the tree is empty; every step on the way to it went into slot
    0 where [v] compares less than the key and into slot 1 where it does not
    and the key compares less than [v]; and at the node returned the
    comparison points to no child. *)
Theorem Find_returns_end_of_descent (t : Node) (v : T) :
  (fst (Find m_comp t v) = nullptr <-> t = nullptr) /\
  plug_all (snd (Find m_comp t v)) (fst (Find m_comp t v)) = t /\
  Forall (went_towards m_comp v) (snd (Find m_comp t v)) /\
  search_stops_at m_comp v (fst (Find m_comp t v)).
Proof.
  destruct (FindImpl_descent v t []) as (ext & Eu & F & P & S).
  unfold Find. rewrite app_nil_r in Eu. rewrite Eu.
  split; [|split; [exact P|split; [exact F|exact S]]].
  split.
  - intros E. destruct t as [|h k b c0 c1]; auto.
    exfalso. revert E. apply FindImpl_not_null. discriminate.
  - intros ->. reflexivity.
Qed.

End NavigationProofs.

(** ** Search and updates on ordered trees *)

Section OrderedProofs.

Variable T : Type.
Variable m_comp : T -> T -> bool.
Variable B : Type.
Context {NB : NodeBaseType T B}.
Hypothesis STO : StrictTotalOrder m_comp.

Local Abbreviation Node := (Node T B).
Local Abbreviation Parent := (Parent T B).

Lemma split_at_unique (v : T) (l1 : list T) :
  forall l2 l1' l2' : list T,
  ~ In v l1 -> ~ In v l1' ->
  l1 ++ v :: l2 = l1' ++ v :: l2' -> l1 = l1' /\ l2 = l2'.
Proof.
  induction l1 as [|x l1 IH]; intros l2 l1' l2' H1 H1' E;
    destruct l1' as [|x' l1']; simpl in *.
  - inversion E; auto.
  - inversion E; subst. tauto.
  - inversion E; subst. tauto.
  - inversion E; subst.
    destruct (IH l2 l1' l2') as (-> & ->); auto.
Qed.

Lemma Find_key (t : Node) (v : T) :
  ordered m_comp t -> t <> nullptr ->
  exists p up k,
    Find m_comp t v = (p, up) /\ plug_all up p = t /\
    GetKey p = Some k /\ (In v (VisitInOrder t) <-> k = v).
Proof.
  intros Ot Hn.
  destruct (@FindImpl_spec T m_comp B STO v t [] Hn Ot)
    as (h & k & b & c0 & c1 & up & EF & EP & (Bb & Ba) & Hc).
  { split; constructor. }
  simpl in EP. exists (node h k b c0 c1), up, k.
  splits; auto.
  assert (Op : ordered m_comp (node h k b c0 c1)).
  { apply ordered_plug_all with up. rewrite EP; auto. }
  apply (ordered_node STO) in Op. destruct Op as (O0 & O1 & F0 & F1).
  assert (Vt : VisitInOrder t =
               keys_before up ++ (VisitInOrder c0 ++ k :: VisitInOrder c1)
               ++ keys_after up).
  { rewrite <- EP, VisitInOrder_plug_all. reflexivity. }
  destruct Hc as [(Evk & ->)|[(Evk & Ekv & ->)|(Evk & Ekv)]].
  - split.
    + intros Hin. exfalso. revert Hin. rewrite Vt.
      apply (not_In_between STO); auto.
      apply Forall_app; split; auto. simpl. constructor; auto.
      apply Forall_forall; intros x Hx.
      apply (less_trans STO) with k; auto.
    + intros ->. unfold less in *. rewrite (comp_irrefl STO) in Evk.
      discriminate.
  - split.
    + intros Hin. exfalso. revert Hin. rewrite Vt, app_assoc.
      apply (not_In_between STO); auto.
      apply Forall_app; split; auto. apply Forall_app; split.
      * apply Forall_forall; intros x Hx.
        apply (less_trans STO) with k; auto.
      * constructor; auto.
    + intros ->. rewrite (comp_irrefl STO) in Ekv. discriminate.
  - assert (v = k) by (apply (comp_total STO); auto). subst k.
    split; auto. intros _. rewrite Vt.
    apply in_or_app; right. apply in_or_app; left.
    apply in_or_app; right; simpl; auto.
Qed.

(** X8.  On a non-empty ordered tree [Find(v)] returns a node of the tree,
    and that node holds [v] exactly when [v] is a key of the tree. *)
Theorem Find_finds_present_keys (t : Node) (v : T) :
  ordered m_comp t -> t <> nullptr ->
  exists p up k,
    Find m_comp t v = (p, up) /\ plug_all up p = t /\
    GetKey p = Some k /\ (In v (VisitInOrder t) <-> k = v).
Proof. exact (@Find_key t v). Qed.

Lemma Add_result (t : Node) (v : T) (res : bool) (t' : Node) :
  avl t -> ordered m_comp t -> Add m_comp t v = Ok (res, t') ->
  avl t' /\ ordered m_comp t' /\ In v (VisitInOrder t') /\
  (res = false /\ t' = t /\ In v (VisitInOrder t) \/
   res = true /\ ~ In v (VisitInOrder t) /\
   exists l1 l2, VisitInOrder t = l1 ++ l2 /\
                 VisitInOrder t' = l1 ++ v :: l2).
Proof.
  intros At Ot E.
  destruct (Add_spec STO v At Ot)
    as [(Hin & E')|(Hn & t2 & l1 & l2 & E' & A' & V & V' & F1 & F2 & _)];
    rewrite E' in E; inversion E; subst.
  - splits; auto.
  - splits; auto.
    + unfold ordered in *. rewrite V'. rewrite V in Ot.
      now apply sorted_insert.
    + rewrite V'. apply in_or_app; simpl; auto.
    + right. splits; auto. exists l1, l2; auto.
Qed.

Lemma Delete_result (t : Node) (v : T) (res : bool) (t' : Node) :
  avl t -> ordered m_comp t -> Delete m_comp t v = Ok (res, t') ->
  avl t' /\ ordered m_comp t' /\ ~ In v (VisitInOrder t') /\
  (res = false /\ t' = t \/
   res = true /\
   exists l1 l2, VisitInOrder t = l1 ++ v :: l2 /\
                 VisitInOrder t' = l1 ++ l2).
Proof.
  intros At Ot E.
  destruct (Delete_spec STO v At Ot)
    as [(Hn & E')|(t2 & l1 & l2 & E' & A' & V & V' & _)];
    rewrite E' in E; inversion E; subst.
  - splits; auto.
  - unfold ordered in *. rewrite V in Ot. splits; auto.
    + rewrite V'. now apply sorted_remove with v.
    + rewrite V'. now apply (sorted_once STO).
    + right. split; auto. exists l1, l2; auto.
Qed.

(** X9.  After [Add(v)], whatever it returned, [Find(v)] returns a node
    that holds [v]. *)
Theorem Add_then_Find (t : Node) (v : T) (res : bool) (t' : Node) :
  avl t -> ordered m_comp t -> Add m_comp t v = Ok (res, t') ->
  exists p up, Find m_comp t' v = (p, up) /\ GetKey p = Some v.
Proof.
  intros At Ot E.
  destruct (@Add_result _ _ _ _ At Ot E) as (A' & O' & Hin & _).
  assert (Hn : t' <> nullptr) by (intros ->; destruct Hin).
  destruct (@Find_key _ v O' Hn) as (p & up & k & EF & _ & Hk & Hiff).
  exists p, up. split; auto. apply Hiff in Hin. now subst k.
Qed.

(** X10.  After [Delete(v)], whatever it returned, the tree does not hold
    [v]: the traversal lacks it, [Find(v)] returns no node holding it, and a
    second [Delete(v)] returns [false] and leaves the tree as it is. *)
Theorem Delete_makes_absent (t : Node) (v : T) (res : bool) (t' : Node) :
  avl t -> ordered m_comp t -> Delete m_comp t v = Ok (res, t') ->
  ~ In v (VisitInOrder t') /\
  GetKey (fst (Find m_comp t' v)) <> Some v /\
  Delete m_comp t' v = Ok (false, t').
Proof.
  intros At Ot E.
  destruct (@Delete_result _ _ _ _ At Ot E) as (A' & O' & Hn & _).
  splits; auto.
  - destruct t' as [|h k b c0 c1]; [discriminate|].
    destruct (@Find_key (node h k b c0 c1) v O')
      as (p & up & k' & EF & _ & Hk & Hiff); [discriminate|].
    rewrite EF. cbn [fst]. rewrite Hk. intros Ek. inversion Ek; subst k'.
    apply Hn, Hiff. reflexivity.
  - destruct (Delete_spec STO v A' O')
      as [(_ & E')|(t2 & l1 & l2 & _ & _ & V & _)]; auto.
    exfalso. apply Hn. rewrite V. apply in_or_app; simpl; auto.
Qed.

(** X11.  Adding a key the tree does not hold and deleting it again gives a
    tree with the traversal of the original one (the shape may differ). *)
Theorem Add_then_Delete_restores_keys (t : Node) (v : T) (t1 : Node) :
  avl t -> ordered m_comp t -> ~ In v (VisitInOrder t) ->
  Add m_comp t v = Ok (true, t1) ->
  exists t2,
    Delete m_comp t1 v = Ok (true, t2) /\
    VisitInOrder t2 = VisitInOrder t /\ avl t2.
Proof.
  intros At Ot Hn E.
  destruct (@Add_result _ _ _ _ At Ot E)
    as (A1 & O1 & Hin & [(C & _)|(_ & _ & l1 & l2 & V & V1)]);
    [discriminate|].
  destruct (Delete_spec STO v A1 O1)
    as [(Hn' & _)|(t2 & l1' & l2' & E' & A2 & V' & V2 & _)]; [tauto|].
  exists t2. splits; auto.
  rewrite V2, V. rewrite V1 in V'.
  assert (H1 : ~ In v l1 /\ ~ In v l2).
  { rewrite V in Hn. split; intros H; apply Hn, in_or_app; auto. }
  assert (H1' : ~ In v l1').
  { unfold ordered in O1. rewrite V1, V' in O1.
    pose proof (sorted_once STO _ _ _ O1) as H.
    intros H'. apply H, in_or_app; auto. }
  destruct (@split_at_unique v l1 l2 l1' l2') as (-> & ->); tauto.
Qed.

(** X12.  A second [Add] of the same key returns [false] and leaves the
    tree as the first [Add] made it. *)
Theorem Add_twice (t : Node) (v : T) (res : bool) (t1 : Node) :
  avl t -> ordered m_comp t -> Add m_comp t v = Ok (res, t1) ->
  Add m_comp t1 v = Ok (false, t1).
Proof.
  intros At Ot E.
  destruct (@Add_result _ _ _ _ At Ot E) as (A1 & O1 & Hin & _).
  destruct (Add_spec STO v A1 O1) as [(_ & E')|(Hn & _)]; tauto.
Qed.

End OrderedProofs.

(** ** The building blocks of the updates *)

Section StructureProofs.

Variable T : Type.
Variable operator_lt : T -> T -> bool.
Variable B : Type.
Context {NB : NodeBaseType T B}.

Local Abbreviation Node := (Node T B).
Local Abbreviation Parent := (Parent T B).

(** The lemmas on shapes hold for any comparer: it plays no part in them. *)
Local Abbreviation any_order := (fun _ _ : T => true).

(** X13.  [RotateOnce] needs the child that is to come up: without it the
    source dereferences null.  With it, the rotation keeps the in-order
    traversal and brings the child's key to the top, and rotating the result
    the other way brings the old top back, again with the same traversal. *)
Theorem RotateOnce_keeps_traversal (p : Node) (ic : ChildIndex) :
  (children p ic = nullptr -> RotateOnce p ic = Undefined) /\
  (children p ic <> nullptr ->
   exists r,
     RotateOnce p ic = Ok r /\ VisitInOrder r = VisitInOrder p /\
     GetKey r = GetKey (children p ic) /\
     exists r',
       RotateOnce r (other ic) = Ok r' /\
       VisitInOrder r' = VisitInOrder p /\ GetKey r' = GetKey p).
Proof.
  split.
  - intros E. destruct p as [|h k b c0 c1]; [reflexivity|].
    unfold RotateOnce. rewrite E. reflexivity.
  - intros Hc. destruct p as [|h k b c0 c1]; [simpl in Hc; congruence|].
    destruct ic; simpl in Hc.
    + destruct c0 as [|h0 k0 b0 c00 c01]; [congruence|].
      eexists; split; [reflexivity|]. simpl. splits; auto; try list_eq.
      eexists; split; [reflexivity|]. simpl. split; auto; try list_eq.
    + destruct c1 as [|h1 k1 b1 c10 c11]; [congruence|].
      eexists; split; [reflexivity|]. simpl. splits; auto; try list_eq.
      eexists; split; [reflexivity|]. simpl. split; auto; try list_eq.
Qed.

(** X14.  [Rebalance]'s work at one node: when both subtrees are AVL trees
    and their heights differ by at most two, the node comes out as an AVL
    tree with the same in-order traversal, no lower than its taller subtree
    and at most one higher; when the heights differ by at most one, nothing
    moves and the height is one more than the taller subtree's. *)
Theorem Rebalance_node_restores_balance (h : nat) (k : T) (b : B)
  (c0 c1 : Node) :
  avl c0 -> avl c1 ->
  height_or_0 c0 <= height_or_0 c1 + 2 ->
  height_or_0 c1 <= height_or_0 c0 + 2 ->
  exists r,
    Rebalance_node (node h k b c0 c1) = Ok r /\ avl r /\
    VisitInOrder r = VisitInOrder c0 ++ k :: VisitInOrder c1 /\
    Nat.max (height_or_0 c0) (height_or_0 c1) <= height_or_0 r /\
    height_or_0 r <= 1 + Nat.max (height_or_0 c0) (height_or_0 c1) /\
    (height_or_0 c0 <= height_or_0 c1 + 1 ->
     height_or_0 c1 <= height_or_0 c0 + 1 ->
     r = UpdateNodeState (node h k b c0 c1)).
Proof.
  intros A0 A1 H0 H1.
  destruct (@Rebalance_node_ok T any_order B NB h k b c0 c1 A0 A1 H0 H1)
    as (r & E & Ar & Vr & G1 & G2 & _).
  exists r. splits; auto.
  intros L0 L1. unfold Rebalance_node, Rebalance_round in E. simpl in E.
  destruct (Nat.ltb_spec (height_or_0 c1 + 1) (height_or_0 c0)); [lia|].
  destruct (Nat.ltb_spec (height_or_0 c0 + 1) (height_or_0 c1)); [lia|].
  simpl in E. inversion E. reflexivity.
Qed.

(** X15.  A node whose subtree heights differ by more than two is not
    rotated: the assertion of [Rebalance] fails. *)
Theorem Rebalance_node_asserts_difference_of_two (h : nat) (k : T) (b : B)
  (c0 c1 : Node) :
  height_or_0 c1 + 2 < height_or_0 c0 \/
  height_or_0 c0 + 2 < height_or_0 c1 ->
  Rebalance_node (node h k b c0 c1) = AssertFailed.
Proof.
  intros H. unfold Rebalance_node, Rebalance_round. simpl.
  destruct (Nat.ltb_spec (height_or_0 c1 + 1) (height_or_0 c0)).
  - destruct (Nat.eqb_spec (height_or_0 c0) (height_or_0 c1 + 2));
      [lia|reflexivity].
  - simpl.
    destruct (Nat.ltb_spec (height_or_0 c0 + 1) (height_or_0 c1)); [|lia].
    destruct (Nat.eqb_spec (height_or_0 c1) (height_or_0 c0 + 2));
      [lia|reflexivity].
Qed.

(** X16.  The walk of [Rebalance] to the root: when a subtree of an AVL tree
    is replaced by an AVL tree whose height differs from the old one's by at
    most one, the walk from the subtree's parent ends with an AVL tree whose
    in-order traversal is that of the tree with the new subtree in place,
    and whose height differs from the old tree's by at most one. *)
Theorem Rebalance_repairs_path (up : list Parent) (old new : Node) :
  avl (plug_all up old) -> avl new ->
  height_or_0 old <= height_or_0 new + 1 ->
  height_or_0 new <= height_or_0 old + 1 ->
  exists r,
    Rebalance up new = Ok r /\ avl r /\
    VisitInOrder r = keys_before up ++ VisitInOrder new ++ keys_after up /\
    height_or_0 (plug_all up old) <= height_or_0 r + 1 /\
    height_or_0 r <= height_or_0 (plug_all up old) + 1.
Proof.
  intros A An H1 H2.
  destruct (avl_plug_all up old A) as (_ & C & Hh).
  destruct (@Rebalance_ok T any_order B NB up new _ C An H1 H2)
    as (r & E & Ar & Vr & G1 & G2 & _).
  exists r. rewrite <- Hh. splits; auto.
  rewrite Vr. apply VisitInOrder_plug_all.
Qed.

(** X17.  [ExtractMax] on a non-empty AVL tree detaches the node the
    in-order traversal visits last, hands it over without children, and
    leaves an AVL tree with the rest of the traversal. *)
Theorem ExtractMax_detaches_last (t : Node) :
  avl t -> t <> nullptr ->
  exists mx rest k,
    ExtractMax t = Ok (mx, rest) /\
    GetKey mx = Some k /\ GetKey (GetMax t) = Some k /\
    children mx I0 = nullptr /\ children mx I1 = nullptr /\
    avl rest /\ VisitInOrder t = VisitInOrder rest ++ [k].
Proof.
  intros A Hn.
  destruct (@ExtractMax_ok T any_order B NB t A Hn)
    as (h & k & b & r & E & Ar & V & _ & c0 & Emax).
  exists (node h k b nullptr nullptr), r, k. rewrite Emax. splits; auto.
Qed.

(** X18.  [MergeWithRoot] joins two AVL trees around a node without
    children: this tree becomes an AVL tree whose in-order traversal is that
    of this tree, the node's key, and that of the right tree, and the right
    tree is left empty.  Nothing is asked of the two heights.  A null node or
    a node with a child fails the assertion. *)
Theorem MergeWithRoot_joins (m_root rightTree : Node) (hr : nat) (kr : T)
  (br : B) :
  avl m_root -> avl rightTree ->
  (exists r,
     MergeWithRoot m_root (node hr kr br nullptr nullptr) rightTree
     = Ok (r, nullptr) /\
     avl r /\
     VisitInOrder r = VisitInOrder m_root ++ kr :: VisitInOrder rightTree) /\
  (forall root,
     is_null root || negb (is_null (children root I0))
     || negb (is_null (children root I1)) = true ->
     MergeWithRoot m_root root rightTree = AssertFailed).
Proof.
  intros A1 A2. split.
  - destruct (@MergeWithRoot_ok T any_order B NB m_root rightTree hr kr br A1 A2)
      as (r & E & Ar & _ & V & _).
    exists r. auto.
  - intros root H. unfold MergeWithRoot.
    destruct root as [|h k b [|] [|]]; simpl in *; try reflexivity.
    discriminate.
Qed.

(** X19.  [MergeWith] does not merge two non-empty trees when [operator<]
    does not hold between the last key of this tree and the first key of the
    other, whatever the comparer says of them: its assertion fails. *)
Theorem MergeWith_asserts_order (t1 t2 : Node) (a c : T) :
  hd_error (rev (VisitInOrder t1)) = Some a ->
  hd_error (VisitInOrder t2) = Some c ->
  operator_lt a c = false ->
  MergeWith operator_lt t1 t2 = AssertFailed.
Proof.
  intros Ha Hc Hac.
  destruct (GetExtreme_keys t1) as (_ & Emax & _).
  destruct (GetExtreme_keys t2) as (Emin & _).
  rewrite Ha in Emax. rewrite Hc in Emin.
  unfold MergeWith.
  destruct t1 as [|h1 k1 b1 c10 c11]; [discriminate|].
  destruct t2 as [|h2 k2 b2 c20 c21]; [discriminate|].
  cbn [is_null orb].
  destruct (GetMax (node h1 k1 b1 c10 c11)); [discriminate|].
  destruct (GetMin (node h2 k2 b2 c20 c21)); [discriminate|].
  simpl in Emax, Emin. inversion Emax; inversion Emin; subst.
  cbn [key_less]. rewrite Hac. reflexivity.
Qed.

Lemma avl_size_bound (t : Node) :
  avl t -> 2 ^ (height_or_0 t / 2) <= length (VisitInOrder t) + 1.
Proof.
  induction t as [|h k b c0 IH0 c1 IH1];
    cbn [avl height_or_0 VisitInOrder]; [intros _; simpl; lia|].
  intros (A0 & A1 & -> & L0 & L1).
  specialize (IH0 A0). specialize (IH1 A1).
  rewrite length_app. cbn [length].
  set (m := Nat.min (height_or_0 c0) (height_or_0 c1)).
  assert (P0 : 2 ^ (m / 2) <= length (VisitInOrder c0) + 1).
  { eapply Nat.le_trans; [|exact IH0].
    apply Nat.pow_le_mono_r; [lia|]. apply Nat.Div0.div_le_mono. lia. }
  assert (P1 : 2 ^ (m / 2) <= length (VisitInOrder c1) + 1).
  { eapply Nat.le_trans; [|exact IH1].
    apply Nat.pow_le_mono_r; [lia|]. apply Nat.Div0.div_le_mono. lia. }
  assert (P : 2 ^ ((1 + Nat.max (height_or_0 c0) (height_or_0 c1)) / 2)
              <= 2 ^ (m / 2 + 1)).
  { apply Nat.pow_le_mono_r; [lia|].
    replace (m / 2 + 1) with ((m + 1 * 2) / 2)
      by (rewrite Nat.div_add; lia).
    apply Nat.Div0.div_le_mono. lia. }
  rewrite Nat.pow_add_r, Nat.pow_1_r in P.
  revert P0 P1 P.
  generalize (2 ^ (m / 2)).
  generalize (2 ^ ((1 + Nat.max (height_or_0 c0) (height_or_0 c1)) / 2)).
  intros; lia.
Qed.

End StructureProofs.

Section BuiltTrees.

Variable T : Type.
Variable m_comp : T -> T -> bool.
Variable operator_lt : T -> T -> bool.
Hypothesis STO : StrictTotalOrder m_comp.

(** X20.  Whatever the augmentation policy, as long as a fresh node carries
    the state [UpdateNodeState] gives a node without children: in every tree
    built by the operations, every node's base state is what the policy
    computes from the node's key and its children as they are now. *)
Theorem augmentation_maintained (B : Type) (NB : NodeBaseType T B)
  (t : Node T B) :
  @ctor_agrees T B NB -> reachable m_comp operator_lt t -> augmented t.
Proof.
  intros Law R. destruct (reachable_inv STO R) as (_ & _ & G). auto.
Qed.

(** X21.  With the size augmentation, the size stored at the root of every
    tree built by the operations is the number of its nodes. *)
Theorem root_size_counts_nodes (t : Node T nat) :
  reachable m_comp operator_lt t -> GetSize t = length (VisitInOrder t).
Proof.
  intros R. apply GetSize_augmented.
  destruct (reachable_inv STO R) as (_ & _ & G).
  apply G. intros v. reflexivity.
Qed.

(** X22.  The height of every tree built by the operations is logarithmic
    in its number of nodes [n]: [2 ^ (height / 2) <= n + 1]. *)
Theorem height_logarithmic (B : Type) (NB : NodeBaseType T B)
  (t : Node T B) :
  reachable m_comp operator_lt t ->
  2 ^ (height_or_0 t / 2) <= length (VisitInOrder t) + 1 /\
  height_or_0 t = tree_height t.
Proof.
  intros R. destruct (reachable_inv STO R) as (A & _ & _). split.
  - now apply avl_size_bound.
  - now apply avl_every_node.
Qed.

End BuiltTrees.

(** ** The range sum as the code computes it *)

Section RangeSumDescent.

Open Scope Z_scope.

Lemma GetRangeSumImpl_sound (p : Node Z Z) :
  ordered Z.ltb p ->
  forall (knowMin : bool) (minV : Z) (knowMax : bool) (maxV l h : Z),
  (knowMin = true -> Forall (fun x => minV < x) (VisitInOrder p)) ->
  (knowMax = true -> Forall (fun x => x < maxV) (VisitInOrder p)) ->
  stored_sums_taken_are_right p knowMin minV knowMax maxV l h ->
  GetRangeSumImpl Z.ltb p knowMin minV knowMax maxV l h =
  sum_in_range l h (VisitInOrder p).
Proof.
  induction p as [|ht k s c0 IH0 c1 IH1]; intros Ho; [reflexivity|].
  apply (ordered_node Zltb_STO) in Ho. destruct Ho as (O0 & O1 & F0 & F1).
  assert (F0' : Forall (fun x => x < k) (VisitInOrder c0)).
  { apply Forall_forall. intros x Hx. apply Z.ltb_lt. exact (F0 x Hx). }
  assert (F1' : Forall (fun x => k < x) (VisitInOrder c1)).
  { apply Forall_forall. intros x Hx. apply Z.ltb_lt. exact (F1 x Hx). }
  intros knowMin minV knowMax maxV l h Bmin Bmax (Es & Hs0 & Hs1).
  cbn [GetRangeSumImpl VisitInOrder].
  rewrite sum_in_range_app, sum_in_range_cons.
  unfold takes_stored_sum in Es.
  destruct (knowMin && knowMax && negb (minV <? l) && negb (h <? maxV))
    eqn:Eshort.
  - rewrite !andb_true_iff, !negb_true_iff, !Z.ltb_ge in Eshort.
    destruct Eshort as (((-> & ->) & Hl) & Hh).
    specialize (Bmin eq_refl). specialize (Bmax eq_refl).
    rewrite <- sum_in_range_cons, <- sum_in_range_app.
    rewrite sum_in_range_all.
    + rewrite (Es eq_refl), subtree_sum_VisitInOrder. reflexivity.
    + rewrite Forall_forall in *. intros x Hx.
      specialize (Bmin x Hx). specialize (Bmax x Hx). lia.
  - clear Eshort Es.
    assert (Bmin0 : knowMin = true ->
                    Forall (fun x => minV < x) (VisitInOrder c0)).
    { intros E. specialize (Bmin E). cbn [VisitInOrder] in Bmin.
      apply Forall_app in Bmin. tauto. }
    assert (Bmax1 : knowMax = true ->
                    Forall (fun x => x < maxV) (VisitInOrder c1)).
    { intros E. specialize (Bmax E). cbn [VisitInOrder] in Bmax.
      apply Forall_app in Bmax. destruct Bmax as (_ & Bmax).
      inversion Bmax; auto. }
    assert (EL : (if (negb knowMin && (l <? k))
                     || negb (std_min Z.ltb k h <? std_max Z.ltb minV l)
                  then GetRangeSumImpl Z.ltb c0 knowMin minV true k l h
                  else 0) = sum_in_range l h (VisitInOrder c0)).
    { destruct ((negb knowMin && (l <? k))
                || negb (std_min Z.ltb k h <? std_max Z.ltb minV l)) eqn:E.
      - apply IH0; auto.
      - symmetry. apply sum_in_range_none.
        apply orb_false_iff in E. destruct E as (E1 & E2).
        apply andb_false_iff in E1. apply negb_false_iff in E2.
        apply Z.ltb_lt in E2.
        unfold std_min, std_max in E2.
        rewrite Forall_forall in *. intros x Hx. specialize (F0' x Hx).
        destruct E1 as [E1|E1].
        + apply negb_false_iff in E1. specialize (Bmin0 E1).
          specialize (Bmin0 x Hx).
          destruct (Z.ltb_spec h k), (Z.ltb_spec minV l); lia.
        + apply Z.ltb_ge in E1. lia. }
    assert (ER : (if (negb knowMax && (k <? h))
                     || negb (std_min Z.ltb maxV h <? std_max Z.ltb k l)
                  then GetRangeSumImpl Z.ltb c1 true k knowMax maxV l h
                  else 0) = sum_in_range l h (VisitInOrder c1)).
    { destruct ((negb knowMax && (k <? h))
                || negb (std_min Z.ltb maxV h <? std_max Z.ltb k l)) eqn:E.
      - apply IH1; auto.
      - symmetry. apply sum_in_range_none.
        apply orb_false_iff in E. destruct E as (E1 & E2).
        apply andb_false_iff in E1. apply negb_false_iff in E2.
        apply Z.ltb_lt in E2.
        unfold std_min, std_max in E2.
        rewrite Forall_forall in *. intros x Hx. specialize (F1' x Hx).
        destruct E1 as [E1|E1].
        + apply negb_false_iff in E1. specialize (Bmax1 E1).
          specialize (Bmax1 x Hx).
          destruct (Z.ltb_spec h maxV), (Z.ltb_spec k l); lia.
        + apply Z.ltb_ge in E1. lia. }
    rewrite <- EL, <- ER.
    replace ((l <=? k) && (k <=? h)) with (negb (k <? l) && negb (h <? k))
      by (rewrite !Z.leb_antisym; reflexivity).
    destruct (negb (k <? l) && negb (h <? k));
      destruct ((negb knowMin && (l <? k))
                || negb (std_min Z.ltb k h <? std_max Z.ltb minV l));
      destruct ((negb knowMax && (k <? h))
                || negb (std_min Z.ltb maxV h <? std_max Z.ltb k l));
      lia.
Qed.

Lemma empty_range_takes_no_stored_sum (p : Node Z Z) (l h : Z) :
  h < l ->
  forall (knowMin : bool) (minV : Z) (knowMax : bool) (maxV : Z),
  ordered Z.ltb p ->
  (knowMin = true -> Forall (fun x => minV < x) (VisitInOrder p)) ->
  (knowMax = true -> Forall (fun x => x < maxV) (VisitInOrder p)) ->
  stored_sums_taken_are_right p knowMin minV knowMax maxV l h.
Proof.
  intros Hhl.
  induction p as [|ht k s c0 IH0 c1 IH1];
    intros knowMin minV knowMax maxV Ho Bmin Bmax; [exact I|].
  apply (ordered_node Zltb_STO) in Ho. destruct Ho as (O0 & O1 & F0 & F1).
  cbn [stored_sums_taken_are_right VisitInOrder] in *. splits.
  - unfold takes_stored_sum. intros E.
    rewrite !andb_true_iff, !negb_true_iff, !Z.ltb_ge in E.
    destruct E as (((E1 & E2) & Hl) & Hh).
    specialize (Bmin E1). specialize (Bmax E2).
    rewrite Forall_forall in Bmin, Bmax.
    assert (Hk : In k (VisitInOrder c0 ++ k :: VisitInOrder c1))
      by (apply in_or_app; simpl; auto).
    specialize (Bmin k Hk). specialize (Bmax k Hk). lia.
  - apply IH0; auto.
    + intros E. specialize (Bmin E). apply Forall_app in Bmin. tauto.
    + intros _. apply Forall_forall. intros x Hx. apply Z.ltb_lt.
      exact (F0 x Hx).
  - apply IH1; auto.
    + intros _. apply Forall_forall. intros x Hx. apply Z.ltb_lt.
      exact (F1 x Hx).
    + intros E. specialize (Bmax E). apply Forall_app in Bmax.
      destruct Bmax as (_ & Bmax). inversion Bmax; auto.
Qed.

Lemma deep_sums_are_the_ones_taken (p : Node Z Z) :
  forall (d : nat) (knowMin : bool) (minV : Z) (knowMax : bool)
         (maxV l h : Z),
  sums_correct_from d p ->
  (d <= (if knowMin then 0 else 1) + (if knowMax then 0 else 1))%nat ->
  stored_sums_taken_are_right p knowMin minV knowMax maxV l h.
Proof.
  induction p as [|ht k s c0 IH0 c1 IH1];
    intros d knowMin minV knowMax maxV l h Hs Hd; [exact I|].
  cbn [sums_correct_from] in Hs. destruct Hs as (Es & Hs0 & Hs1).
  cbn [stored_sums_taken_are_right]. splits.
  - unfold takes_stored_sum. intros E.
    rewrite !andb_true_iff in E. destruct E as (((-> & ->) & _) & _).
    apply Es. simpl in Hd. lia.
  - apply (IH0 (pred d)); auto. destruct knowMin, knowMax; simpl in *; lia.
  - apply (IH1 (pred d)); auto. destruct knowMin, knowMax; simpl in *; lia.
Qed.

(** X23.  [GetRangeSum] on an ordered tree returns the sum of the keys
    within the bounds whenever every stored sum its descent could take in
    place of a subtree is the sum of that subtree's keys. *)
Theorem GetRangeSum_right_where_sums_right (t : Node Z Z) (lo hi : Z) :
  ordered Z.ltb t ->
  stored_sums_taken_are_right t false lo false hi lo hi ->
  GetRangeSum Z.ltb t lo hi = sum_of_keys_in_range t lo hi.
Proof.
  intros O H. unfold GetRangeSum.
  apply GetRangeSumImpl_sound; auto; discriminate.
Qed.

(** X24.  For bounds that enclose nothing ([hi < lo]) [GetRangeSum] on an
    ordered tree returns zero, whatever sums the nodes store. *)
Theorem GetRangeSum_empty_range (t : Node Z Z) (lo hi : Z) :
  ordered Z.ltb t -> hi < lo -> GetRangeSum Z.ltb t lo hi = 0.
Proof.
  intros O H. unfold GetRangeSum.
  rewrite GetRangeSumImpl_sound; auto; try discriminate.
  - apply sum_in_range_none. apply Forall_forall. intros x _. lia.
  - apply empty_range_takes_no_stored_sum; auto; discriminate.
Qed.

(** X25.  [GetRangeSum] never takes the sum stored in the root or in a
    child of the root: on an ordered tree whose stored sums are right from
    two levels below the root on, it returns the sum of the keys within the
    bounds, whatever the root and its children store. *)
Theorem GetRangeSum_reads_no_sum_above_depth_2 (t : Node Z Z) (lo hi : Z) :
  ordered Z.ltb t -> sums_correct_from 2 t ->
  GetRangeSum Z.ltb t lo hi = sum_of_keys_in_range t lo hi.
Proof.
  intros O H. unfold GetRangeSum.
  apply GetRangeSumImpl_sound; auto; try discriminate.
  apply deep_sums_are_the_ones_taken with 2%nat; auto.
Qed.

End RangeSumDescent.


(** ** Instances on concrete trees *)

(** Every tree obtained by adding keys one after the other to a tree built
    by the operations is built by the operations. *)
Lemma AddAll_reachable (T : Type) (m_comp operator_lt : T -> T -> bool)
  (B : Type) (NB : NodeBaseType T B) (keys : list T) :
  forall t t' : Node T B,
  reachable m_comp operator_lt t -> AddAll m_comp t keys = Ok t' ->
  reachable m_comp operator_lt t'.
Proof.
  induction keys as [|v keys IH]; intros t t' R E; simpl in E.
  - injection E as <-. exact R.
  - destruct (Add m_comp t v) as [[res t1]| | |] eqn:EA; try discriminate.
    simpl in E. apply (IH t1); auto. exact (reach_Add v R EA).
Qed.

Lemma GetNext_successor_witness :
  locate [I1] tree_123 [] = Some (node_3, above_node_3) /\
  exists l1 k l2,
    points_at tree_123 node_3 above_node_3 l1 k l2 /\
    VisitInOrder tree_123 = l1 ++ k :: l2 /\
    exists q uq,
      GetNext tree_123 (Some [I1]) = Ok (q, uq) /\
      match l2 with
      | [] => q = nullptr
      | k' :: l2' => points_at tree_123 q uq (l1 ++ [k]) k' l2'
      end.
Proof.
  assert (L : locate [I1] tree_123 [] = Some (node_3, above_node_3))
    by reflexivity.
  split; [exact L|].
  exact (@GetNext_successor Z unit tree_123 [I1] node_3 above_node_3 L).
Defined.

Lemma GetPrev_predecessor_witness :
  locate [I1] tree_123 [] = Some (node_3, above_node_3) /\
  exists l1 k l2,
    points_at tree_123 node_3 above_node_3 l1 k l2 /\
    VisitInOrder tree_123 = l1 ++ k :: l2 /\
    exists q uq,
      GetPrev tree_123 (Some [I1]) = Ok (q, uq) /\
      (l1 = [] /\ q = nullptr \/
       exists l1' k',
         l1 = l1' ++ [k'] /\ points_at tree_123 q uq l1' k' (k :: l2)).
Proof.
  assert (L : locate [I1] tree_123 [] = Some (node_3, above_node_3))
    by reflexivity.
  split; [exact L|].
  exact (@GetPrev_predecessor Z unit tree_123 [I1] node_3 above_node_3 L).
Defined.

Lemma GetNext_GetPrev_round_trip_witness :
  points_at tree_123 tree_123 [] [1%Z] 2%Z [3%Z] /\
  GetNextImpl tree_123 [] I1 = Ok (node_3, above_node_3) /\
  node_3 <> nullptr /\
  exists cur' up',
    GetNextImpl node_3 above_node_3 (other I1) = Ok (cur', up') /\
    points_at tree_123 cur' up' [1%Z] 2%Z [3%Z].
Proof.
  assert (P : points_at tree_123 tree_123 [] [1%Z] 2%Z [3%Z]).
  { split; [reflexivity|]. do 4 eexists. splits; reflexivity. }
  assert (E : GetNextImpl tree_123 [] I1 = Ok (node_3, above_node_3))
    by reflexivity.
  assert (N : node_3 <> nullptr) by discriminate.
  split; [exact P|]. split; [exact E|]. split; [exact N|].
  exact (@GetNext_GetPrev_round_trip Z unit tree_123 tree_123 [] [1%Z] 2%Z
           [3%Z] I1 node_3 above_node_3 P E N).
Defined.

Lemma GetMin_GetNext_enumerates_witness :
  length (VisitInOrder scenario_tree) <= 9 /\
  follow_GetNext 9 (fst (GetExtreme_at scenario_tree I0))
    (snd (GetExtreme_at scenario_tree I0))
  = Ok (VisitInOrder scenario_tree).
Proof.
  assert (L : length (VisitInOrder scenario_tree) <= 9) by (simpl; lia).
  split; [exact L|].
  exact (@GetMin_GetNext_enumerates Z unit scenario_tree 9 L).
Defined.

Lemma Find_finds_present_keys_witness :
  ordered Z.ltb scenario_tree /\ scenario_tree <> nullptr /\
  exists p up k,
    Find Z.ltb scenario_tree 4%Z = (p, up) /\
    plug_all up p = scenario_tree /\ GetKey p = Some k /\
    (In 4%Z (VisitInOrder scenario_tree) <-> k = 4%Z).
Proof.
  assert (O : ordered Z.ltb scenario_tree) by solve_ordered.
  assert (N : scenario_tree <> nullptr) by discriminate.
  split; [exact O|]. split; [exact N|].
  exact (@Find_finds_present_keys Z Z.ltb unit Zltb_STO scenario_tree 4%Z
           O N).
Defined.

Lemma Add_then_Find_witness :
  avl tree_123 /\ ordered Z.ltb tree_123 /\
  Add Z.ltb tree_123 4%Z = Ok (true, tree_1234) /\
  exists p up, Find Z.ltb tree_1234 4%Z = (p, up) /\ GetKey p = Some 4%Z.
Proof.
  assert (A : avl tree_123) by solve_avl.
  assert (O : ordered Z.ltb tree_123) by solve_ordered.
  assert (E : Add Z.ltb tree_123 4%Z = Ok (true, tree_1234)) by reflexivity.
  split; [exact A|]. split; [exact O|]. split; [exact E|].
  exact (@Add_then_Find Z Z.ltb unit _ Zltb_STO tree_123 4%Z true tree_1234
           A O E).
Defined.

Lemma Delete_makes_absent_witness :
  avl tree_123 /\ ordered Z.ltb tree_123 /\
  Delete Z.ltb tree_123 3%Z = Ok (true, tree_21) /\
  ~ In 3%Z (VisitInOrder tree_21) /\
  GetKey (fst (Find Z.ltb tree_21 3%Z)) <> Some 3%Z /\
  Delete Z.ltb tree_21 3%Z = Ok (false, tree_21).
Proof.
  assert (A : avl tree_123) by solve_avl.
  assert (O : ordered Z.ltb tree_123) by solve_ordered.
  assert (E : Delete Z.ltb tree_123 3%Z = Ok (true, tree_21))
    by reflexivity.
  split; [exact A|]. split; [exact O|]. split; [exact E|].
  exact (@Delete_makes_absent Z Z.ltb unit _ Zltb_STO tree_123 3%Z true
           tree_21 A O E).
Defined.

Lemma Add_then_Delete_restores_keys_witness :
  avl tree_123 /\ ordered Z.ltb tree_123 /\
  ~ In 4%Z (VisitInOrder tree_123) /\
  Add Z.ltb tree_123 4%Z = Ok (true, tree_1234) /\
  exists t2,
    Delete Z.ltb tree_1234 4%Z = Ok (true, t2) /\
    VisitInOrder t2 = VisitInOrder tree_123 /\ avl t2.
Proof.
  assert (A : avl tree_123) by solve_avl.
  assert (O : ordered Z.ltb tree_123) by solve_ordered.
  assert (N : ~ In 4%Z (VisitInOrder tree_123)).
  { simpl. intros [H|[H|[H|[]]]]; discriminate H. }
  assert (E : Add Z.ltb tree_123 4%Z = Ok (true, tree_1234)) by reflexivity.
  split; [exact A|]. split; [exact O|]. split; [exact N|]. split; [exact E|].
  exact (@Add_then_Delete_restores_keys Z Z.ltb unit _ Zltb_STO tree_123 4%Z
           tree_1234 A O N E).
Defined.

Lemma Add_twice_witness :
  avl tree_123 /\ ordered Z.ltb tree_123 /\
  Add Z.ltb tree_123 4%Z = Ok (true, tree_1234) /\
  Add Z.ltb tree_1234 4%Z = Ok (false, tree_1234).
Proof.
  assert (A : avl tree_123) by solve_avl.
  assert (O : ordered Z.ltb tree_123) by solve_ordered.
  assert (E : Add Z.ltb tree_123 4%Z = Ok (true, tree_1234)) by reflexivity.
  split; [exact A|]. split; [exact O|]. split; [exact E|].
  exact (@Add_twice Z Z.ltb unit _ Zltb_STO tree_123 4%Z true tree_1234
           A O E).
Defined.

Lemma Rebalance_node_restores_balance_witness :
  avl (@nullptr Z unit) /\ avl tree_23 /\
  height_or_0 (@nullptr Z unit) <= height_or_0 tree_23 + 2 /\
  height_or_0 tree_23 <= height_or_0 (@nullptr Z unit) + 2 /\
  exists r,
    Rebalance_node (node 3 1%Z tt nullptr tree_23) = Ok r /\ avl r /\
    VisitInOrder r = VisitInOrder (@nullptr Z unit) ++ 1%Z :: VisitInOrder tree_23 /\
    Nat.max (height_or_0 (@nullptr Z unit)) (height_or_0 tree_23)
    <= height_or_0 r /\
    height_or_0 r
    <= 1 + Nat.max (height_or_0 (@nullptr Z unit)) (height_or_0 tree_23) /\
    (height_or_0 (@nullptr Z unit) <= height_or_0 tree_23 + 1 ->
     height_or_0 tree_23 <= height_or_0 (@nullptr Z unit) + 1 ->
     r = UpdateNodeState (node 3 1%Z tt nullptr tree_23)).
Proof.
  assert (A0 : avl (@nullptr Z unit)) by exact I.
  assert (A1 : avl tree_23) by solve_avl.
  assert (H0 : height_or_0 (@nullptr Z unit) <= height_or_0 tree_23 + 2)
    by (simpl; lia).
  assert (H1 : height_or_0 tree_23 <= height_or_0 (@nullptr Z unit) + 2)
    by (simpl; lia).
  split; [exact A0|]. split; [exact A1|]. split; [exact H0|].
  split; [exact H1|].
  exact (@Rebalance_node_restores_balance Z unit _ 3 1%Z tt nullptr tree_23
           A0 A1 H0 H1).
Defined.

Lemma Rebalance_node_asserts_difference_of_two_witness :
  (height_or_0 (@nullptr Z unit) + 2 < height_or_0 scenario_tree \/
   height_or_0 scenario_tree + 2 < height_or_0 (@nullptr Z unit)) /\
  Rebalance_node (node 5 0%Z tt scenario_tree nullptr) = AssertFailed.
Proof.
  assert (H : height_or_0 (@nullptr Z unit) + 2 < height_or_0 scenario_tree \/
              height_or_0 scenario_tree + 2 < height_or_0 (@nullptr Z unit))
    by (left; simpl; lia).
  split; [exact H|].
  exact (@Rebalance_node_asserts_difference_of_two Z unit _ 5 0%Z tt
           scenario_tree nullptr H).
Defined.

Lemma Rebalance_repairs_path_witness :
  avl (plug_all above_node_3 nullptr) /\ avl node_3 /\
  height_or_0 (@nullptr Z unit) <= height_or_0 node_3 + 1 /\
  height_or_0 node_3 <= height_or_0 (@nullptr Z unit) + 1 /\
  exists r,
    Rebalance above_node_3 node_3 = Ok r /\ avl r /\
    VisitInOrder r
    = keys_before above_node_3 ++ VisitInOrder node_3
      ++ keys_after above_node_3 /\
    height_or_0 (plug_all above_node_3 nullptr) <= height_or_0 r + 1 /\
    height_or_0 r <= height_or_0 (plug_all above_node_3 nullptr) + 1.
Proof.
  assert (A : avl (plug_all above_node_3 nullptr)) by solve_avl.
  assert (An : avl node_3) by solve_avl.
  assert (H0 : height_or_0 (@nullptr Z unit) <= height_or_0 node_3 + 1)
    by (simpl; lia).
  assert (H1 : height_or_0 node_3 <= height_or_0 (@nullptr Z unit) + 1)
    by (simpl; lia).
  split; [exact A|]. split; [exact An|]. split; [exact H0|].
  split; [exact H1|].
  exact (@Rebalance_repairs_path Z unit _ above_node_3 nullptr node_3
           A An H0 H1).
Defined.

Lemma ExtractMax_detaches_last_witness :
  avl scenario_tree /\ scenario_tree <> nullptr /\
  exists mx rest k,
    ExtractMax scenario_tree = Ok (mx, rest) /\
    GetKey mx = Some k /\ GetKey (GetMax scenario_tree) = Some k /\
    children mx I0 = nullptr /\ children mx I1 = nullptr /\
    avl rest /\ VisitInOrder scenario_tree = VisitInOrder rest ++ [k].
Proof.
  assert (A : avl scenario_tree) by solve_avl.
  assert (N : scenario_tree <> nullptr) by discriminate.
  split; [exact A|]. split; [exact N|].
  exact (@ExtractMax_detaches_last Z unit _ scenario_tree A N).
Defined.

Lemma MergeWithRoot_joins_witness :
  avl tree_1 /\ avl node_3 /\
  (exists r,
     MergeWithRoot tree_1 (node 1 2%Z tt nullptr nullptr) node_3
     = Ok (r, nullptr) /\
     avl r /\
     VisitInOrder r = VisitInOrder tree_1 ++ 2%Z :: VisitInOrder node_3) /\
  (forall root,
     is_null root || negb (is_null (children root I0))
     || negb (is_null (children root I1)) = true ->
     MergeWithRoot tree_1 root node_3 = AssertFailed).
Proof.
  assert (A1 : avl tree_1) by solve_avl.
  assert (A2 : avl node_3) by solve_avl.
  split; [exact A1|]. split; [exact A2|].
  exact (@MergeWithRoot_joins Z unit _ tree_1 node_3 1 2%Z tt A1 A2).
Defined.

Lemma MergeWith_asserts_order_witness :
  hd_error (rev (VisitInOrder descending_54)) = Some 4%Z /\
  hd_error (VisitInOrder descending_21) = Some 2%Z /\
  (4 <? 2)%Z = false /\
  MergeWith Z.ltb descending_54 descending_21 = AssertFailed.
Proof.
  assert (H1 : hd_error (rev (VisitInOrder descending_54)) = Some 4%Z)
    by reflexivity.
  assert (H2 : hd_error (VisitInOrder descending_21) = Some 2%Z)
    by reflexivity.
  assert (H3 : (4 <? 2)%Z = false) by reflexivity.
  split; [exact H1|]. split; [exact H2|]. split; [exact H3|].
  exact (@MergeWith_asserts_order Z Z.ltb unit _ descending_54
           descending_21 4%Z 2%Z H1 H2 H3).
Defined.

Lemma augmentation_maintained_witness :
  @ctor_agrees Z Z SumNodeBaseType /\
  reachable Z.ltb Z.ltb range_sum_tree /\
  augmented range_sum_tree.
Proof.
  assert (C : @ctor_agrees Z Z SumNodeBaseType) by (intros v; reflexivity).
  assert (R : reachable Z.ltb Z.ltb range_sum_tree).
  { apply (@AddAll_reachable Z Z.ltb Z.ltb Z _ range_sum_keys nullptr);
      [apply reach_empty|reflexivity]. }
  split; [exact C|]. split; [exact R|].
  exact (@augmentation_maintained Z Z.ltb Z.ltb Zltb_STO Z _ range_sum_tree
           C R).
Defined.

Lemma root_size_counts_nodes_witness :
  reachable Z.ltb Z.ltb scenario_tree_sized /\
  GetSize scenario_tree_sized = length (VisitInOrder scenario_tree_sized).
Proof.
  assert (R : reachable Z.ltb Z.ltb scenario_tree_sized).
  { apply (@AddAll_reachable Z Z.ltb Z.ltb nat _ scenario_keys nullptr);
      [apply reach_empty|reflexivity]. }
  split; [exact R|].
  exact (@root_size_counts_nodes Z Z.ltb Z.ltb Zltb_STO scenario_tree_sized
           R).
Defined.

Lemma height_logarithmic_witness :
  reachable Z.ltb Z.ltb scenario_tree /\
  2 ^ (height_or_0 scenario_tree / 2)
  <= length (VisitInOrder scenario_tree) + 1 /\
  height_or_0 scenario_tree = tree_height scenario_tree.
Proof.
  assert (R : reachable Z.ltb Z.ltb scenario_tree).
  { apply (@AddAll_reachable Z Z.ltb Z.ltb unit _ scenario_keys nullptr);
      [apply reach_empty|reflexivity]. }
  split; [exact R|].
  exact (@height_logarithmic Z Z.ltb Z.ltb Zltb_STO unit _ scenario_tree
           R).
Defined.

(** For the bounds 2 and 8 the descent through [scenario_tree_summed]
    reaches the node with key 7 knowing that its keys lie between 5 and 8,
    and takes its stored sum, 13, for the subtree. *)
Example stored_sum_taken_at_7 :
  takes_stored_sum true 5 true 8 2 8 = true /\
  GetRangeSumImpl Z.ltb
    (node 2 7%Z 13%Z (node 1 6%Z 6%Z nullptr nullptr) nullptr)
    true 5 true 8 2 8 = 13%Z.
Proof. split; reflexivity. Qed.

Lemma GetRangeSum_right_where_sums_right_witness :
  ordered Z.ltb scenario_tree_summed /\
  stored_sums_taken_are_right scenario_tree_summed false 2%Z false 8%Z
    2%Z 8%Z /\
  GetRangeSum Z.ltb scenario_tree_summed 2%Z 8%Z
  = sum_of_keys_in_range scenario_tree_summed 2%Z 8%Z.
Proof.
  assert (O : ordered Z.ltb scenario_tree_summed) by solve_ordered.
  assert (H : stored_sums_taken_are_right scenario_tree_summed false 2%Z
                false 8%Z 2%Z 8%Z).
  { vm_compute. repeat split; intros E; try discriminate E; reflexivity. }
  split; [exact O|]. split; [exact H|].
  exact (@GetRangeSum_right_where_sums_right scenario_tree_summed 2%Z 8%Z
           O H).
Defined.

Lemma GetRangeSum_empty_range_witness :
  ordered Z.ltb range_sum_tree /\ (3 < 7)%Z /\
  GetRangeSum Z.ltb range_sum_tree 7%Z 3%Z = 0%Z.
Proof.
  assert (O : ordered Z.ltb range_sum_tree) by solve_ordered.
  assert (H : (3 < 7)%Z) by lia.
  split; [exact O|]. split; [exact H|].
  exact (@GetRangeSum_empty_range range_sum_tree 7%Z 3%Z O H).
Defined.

Lemma GetRangeSum_reads_no_sum_above_depth_2_witness :
  ordered Z.ltb scenario_tree_summed /\
  sums_correct_from 2 scenario_tree_summed /\
  GetRangeSum Z.ltb scenario_tree_summed 2%Z 8%Z
  = sum_of_keys_in_range scenario_tree_summed 2%Z 8%Z.
Proof.
  assert (O : ordered Z.ltb scenario_tree_summed) by solve_ordered.
  assert (H : sums_correct_from 2 scenario_tree_summed).
  { vm_compute. repeat split; intros E; try discriminate E; reflexivity. }
  split; [exact O|]. split; [exact H|].
  exact (@GetRangeSum_reads_no_sum_above_depth_2 scenario_tree_summed 2%Z
           8%Z O H).
Defined.
